(** * Seat reservation in [cinema/serializers.py]

    A shallow embedding of the ticket and order serializers: hall
    geometry ([TicketCreateSerializer.validate]), session availability
    ([get_tickets_available]), the batch validator
    ([OrderCreateSerializer.validate]) and the order commit
    ([OrderCreateSerializer.create]); then the taken places of a session
    ([get_taken_places]) and the querysets of [cinema/views.py].

    Python integers are [Z]; the ORM is a state-and-error monad over the
    persisted tables that also records every query it issues. *)

From stdpp Require Import gmap strings list pretty sorting.
From Stdlib Require Import ZArith Lia Ascii.

#[local] Set Warnings "-clear-no-such-hyp".

Local Open Scope string_scope.
Local Open Scope list_scope.
Local Open Scope Z_scope.

(** ** Data model *)

Module Model.

Record CinemaHall := {
  hall_name : string;
  rows : Z;
  seats_in_row : Z
}.

(** Modelled from the spec: [CinemaHall.capacity] is a property of the
    model class in [cinema/models.py], which is not part of the sources
    at hand; the data model gives it as [rows × seatsInRow]. *)
Definition capacity (hall : CinemaHall) : Z :=
  rows hall * seats_in_row hall.

Record MovieSession := {
  session_id : Z;
  cinema_hall : CinemaHall
}.

Record Order := {
  order_id : Z;
  order_user : Z
}.

Record Ticket := {
  ticket_id : Z;
  row : Z;
  seat : Z;
  ticket_order : Z;
  movie_session_id : Z
}.

(** The dictionaries [{"movie_session": .., "row": .., "seat": ..}] that
    the validator puts in its [duplicates] and [conflicts] lists. *)
Record SeatRef := {
  ref_movie_session : Z;
  ref_row : Z;
  ref_seat : Z
}.

#[global] Instance CinemaHall_eq_dec : EqDecision CinemaHall.
Proof. solve_decision. Defined.
#[global] Instance MovieSession_eq_dec : EqDecision MovieSession.
Proof. solve_decision. Defined.
#[global] Instance Order_eq_dec : EqDecision Order.
Proof. solve_decision. Defined.
#[global] Instance Ticket_eq_dec : EqDecision Ticket.
Proof. solve_decision. Defined.
#[global] Instance SeatRef_eq_dec : EqDecision SeatRef.
Proof. solve_decision. Defined.

(** The coordinate the uniqueness invariant speaks about. *)
Definition seat_key (t : Ticket) : Z * Z * Z :=
  (movie_session_id t, row t, seat t).

Definition ref_key (r : SeatRef) : Z * Z * Z :=
  (ref_movie_session r, ref_row r, ref_seat r).

End Model.
Export Model.

(** ** Hall geometry: [TicketCreateSerializer.validate] *)

Module Geometry.

(** [f"{n}"] for a Python integer. *)
Definition py_str (n : Z) : string := pretty n.

Definition row_message (hall : CinemaHall) : string :=
  "Row must be within [1.." +:+ py_str (rows hall)
    +:+ "] for this cinema hall.".

Definition seat_message (hall : CinemaHall) : string :=
  "Seat must be within " +:+
  "[1.." +:+ py_str (seats_in_row hall) +:+ "] for this cinema hall.".

(** The [errors] dictionary, filled key by key as the two [if]s do. *)
Definition geometry_errors (hall : CinemaHall) (row seat : Z)
  : gmap string string :=
  let errors : gmap string string := ∅ in
  let errors :=
    if bool_decide (row < 1) || bool_decide (row > rows hall)
    then <["row" := row_message hall]> errors else errors in
  let errors :=
    if bool_decide (seat < 1) || bool_decide (seat > seats_in_row hall)
    then <["seat" := seat_message hall]> errors else errors in
  errors.

(** [validate(attrs)]: [inl errors] is [raise ValidationError(errors)],
    [inr attrs] is [return attrs]. *)
Definition TicketCreateSerializer_validate
    (movie_session : MovieSession) (row seat : Z)
  : gmap string string + (MovieSession * Z * Z) :=
  let hall := cinema_hall movie_session in
  let errors := geometry_errors hall row seat in
  if bool_decide (errors ≠ ∅) then inl errors
  else inr (movie_session, row, seat).

End Geometry.
Export Geometry.

(** ** Session availability: [get_tickets_available] *)

Module Availability.

(** [Ticket.objects.filter(movie_session=obj).count()] *)
Definition count_tickets (tickets : list Ticket) (obj : MovieSession) : Z :=
  Z.of_nat (length (filter (λ t, movie_session_id t = session_id obj) tickets)).

Definition get_tickets_available
    (tickets : list Ticket) (obj : MovieSession) : Z :=
  let total_capacity := capacity (cinema_hall obj) in
  let taken := count_tickets tickets obj in
  Z.max (total_capacity - taken) 0.

End Availability.
Export Availability.

(** ** The persisted store and the ORM calls the serializers make *)

Module Store.

(** The tables.  A session row is keyed by its primary key and holds the
    hall its [cinema_hall] foreign key points to. *)
Record DB := {
  sessions : gmap Z CinemaHall;
  orders : list Order;
  tickets : list Ticket
}.

(** One entry per statement sent to the database. *)
Inductive Query :=
| QSessionGet (pk : Z)
| QTicketFilter (ms_id : Z) (row__in : list Z)
| QOrderCreate (user : Z)
| QTicketInsert (key : Z * Z * Z).

(** The tables together with the statements issued so far.  A
    computation that returns the world it was given has not touched the
    store at all. *)
Record World := {
  db : DB;
  log : list Query
}.

(** What a single entry of the [tickets] list is rejected with. *)
Inductive ItemError :=
| NotAnInteger
| UnknownSession (pk : Z)
| OutOfBounds (errors : gmap string string).

(** What a booking fails with: the [ValidationError]s of
    [OrderCreateSerializer.validate] in the order of its [raise]
    statements, the per-entry errors of the nested serializer, the
    framework's assertion that [validate] returns a value, and the
    database's refusal of an insert. *)
Inductive Error :=
| EmptyTickets
| MalformedTickets
| DuplicateTickets (duplicates : list SeatRef)
| TakenTickets (conflicts : list SeatRef)
| TicketErrors (errors : list (option ItemError))
| ValidateReturnedNone
| IntegrityError.

(** Computations that read and write the store and may raise. *)
Definition M (A : Type) : Type := World → (Error + A) * World.

#[global] Instance M_ret : MRet M := λ A (a : A) w, (inr a, w).
#[global] Instance M_bind : MBind M := λ A B (f : A → M B) (m : M A) w,
  match m w with
  | (inl e, w') => (inl e, w')
  | (inr a, w') => f a w'
  end.

Definition raise {A} (e : Error) : M A := λ w, (inl e, w).

Definition query (q : Query) : M () :=
  λ w, (inr (), {| db := db w; log := log w ++ [q] |}).

Definition get_db : M DB := λ w, (inr (db w), w).

Definition put_db (d : DB) : M () :=
  λ w, (inr (), {| db := d; log := log w |}).

(** [with transaction.atomic(): body]: when [body] raises, the tables
    are put back as they were on entry and the exception propagates. *)
Definition atomic {A} (body : M A) : M A := λ w,
  match body w with
  | (inl e, w') => (inl e, {| db := db w; log := log w' |})
  | (inr a, w') => (inr a, w')
  end.

(** [MovieSession.objects.all().get(pk=pk)], as the
    [PrimaryKeyRelatedField] on line 169 does it. *)
Definition MovieSession_get (pk : Z) : M (option MovieSession) :=
  query (QSessionGet pk);;
  d ← get_db;
  mret ((λ hall, {| session_id := pk; cinema_hall := hall |}) <$>
          sessions d !! pk).

(** [set(Ticket.objects.filter(movie_session_id=ms_id, row__in=rows)
        .values_list("row", "seat"))] *)
Definition Ticket_filter_values (ms_id : Z) (row__in : list Z)
  : M (gset (Z * Z)) :=
  query (QTicketFilter ms_id row__in);;
  d ← get_db;
  mret (list_to_set
          ((λ t, (row t, seat t)) <$>
             filter (λ t, movie_session_id t = ms_id ∧ row t ∈ row__in)
                    (tickets d))).

(** [Order.objects.create(user=user)] *)
Definition Order_create (user : Z) : M Order :=
  query (QOrderCreate user);;
  d ← get_db;
  let order := {| order_id := Z.of_nat (length (orders d)) + 1;
                  order_user := user |} in
  put_db {| sessions := sessions d;
            orders := orders d ++ [order];
            tickets := tickets d |};;
  mret order.

(** Modelled from the spec: the [Ticket] model class and its table are
    declared in [cinema/models.py], which is not part of the sources at
    hand; the persisted layout gives the table a uniqueness constraint on
    [(movieSessionId, row, seat)].  A row whose coordinate is already in
    the table makes the insert fail. *)
Definition violates_unique (d : DB) (t : Ticket) : bool :=
  bool_decide (seat_key t ∈ seat_key <$> tickets d).

Definition Ticket_insert (t : Ticket) : M () :=
  query (QTicketInsert (seat_key t));;
  d ← get_db;
  if violates_unique d t then raise IntegrityError
  else
    put_db {| sessions := sessions d;
              orders := orders d;
              tickets := tickets d ++
                [ {| ticket_id := Z.of_nat (length (tickets d)) + 1;
                     row := row t; seat := seat t;
                     ticket_order := ticket_order t;
                     movie_session_id := movie_session_id t |} ] |}.

(** [Ticket.objects.bulk_create(objs)] *)
Fixpoint Ticket_bulk_create (objs : list Ticket) : M () :=
  match objs with
  | [] => mret ()
  | t :: objs' => Ticket_insert t;; Ticket_bulk_create objs'
  end.

End Store.
Export Store.

(** ** Python containers used by [OrderCreateSerializer.validate] *)

Module Py.

(** A [dict] with integer keys; Python keeps the keys in the order of
    their first insertion, and [items()] iterates in that order. *)
Fixpoint dict_get {V} (k : Z) (d : list (Z * V)) : option V :=
  match d with
  | [] => None
  | (k', v) :: d' => if bool_decide (k' = k) then Some v else dict_get k d'
  end.

(** [d[k] = v]: an existing key keeps its place. *)
Fixpoint dict_set {V} (k : Z) (v : V) (d : list (Z * V)) : list (Z * V) :=
  match d with
  | [] => [(k, v)]
  | (k', v') :: d' =>
      if bool_decide (k' = k) then (k, v) :: d'
      else (k', v') :: dict_set k v d'
  end.

(** [d.setdefault(k, v)]: the dictionary afterwards and the value that
    the call returns. *)
Definition dict_setdefault {V} (k : Z) (v : V) (d : list (Z * V))
  : list (Z * V) * V :=
  match dict_get k d with
  | Some v' => (d, v')
  | None => (dict_set k v d, v)
  end.

(** What the body of a [for] loop does next. *)
Inductive Flow (S R : Type) :=
| Continue (s : S)
| Return (r : R).
Arguments Continue {S R} s.
Arguments Return {S R} r.

(** [for x in xs: body], with [s] the variables the body updates.
    [inl s] is the loop running to its end, [inr r] a [return r] from
    inside the body. *)
Fixpoint for_each {A S R} (xs : list A) (s : S)
    (body : A → S → M (Flow S R)) : M (S + R) :=
  match xs with
  | [] => mret (inl s)
  | x :: xs' =>
      f ← body x s;
      match f with
      | Continue s' => for_each xs' s' body
      | Return r => mret (inr r)
      end
  end.

End Py.
Export Py.

(** ** The serializers *)

Module Serializers.

(** One entry of the request's [tickets] list.  The code reads each of
    its three values twice, with two readers that need not agree on what
    is an integer: [validate] with [int(..)], the nested serializer with
    its declared fields.  The [raw_] projections are the first reading,
    [Some z] when [int(..)] returns [z] and [None] when the key is absent
    or [int(..)] raises [TypeError] or [ValueError]; the [field_]
    projections are the second, [Some z] when the serializer field
    accepts the value as the integer [z] and [None] when it rejects it.
    Both readings of an entry are kept, so that an entry one reader
    accepts and the other refuses is an entry like any other. *)
Record RawTicket := {
  raw_movie_session : option Z;
  raw_row : option Z;
  raw_seat : option Z;
  field_movie_session : option Z;
  field_row : option Z;
  field_seat : option Z
}.

(** A validated entry: [{"row": .., "seat": .., "movie_session": obj}]. *)
Record TicketData := {
  data_movie_session : MovieSession;
  data_row : Z;
  data_seat : Z
}.

(** [attrs]: the validated data of the order, i.e. its [tickets]. *)
Abbreviation Attrs := (list TicketData).

(** *** [TicketCreateSerializer] on one entry

    The declared fields ([row], [seat], [movie_session] with its
    queryset) are resolved first, each from its [field_] reading of the
    entry, then [validate] runs.  Validators that
    the model class in [cinema/models.py] may add to the serializer are
    not part of the sources at hand and are left out. *)
Definition Ticket_run_validation (t : RawTicket)
  : M (ItemError + TicketData) :=
  ms ← match field_movie_session t with
       | Some pk => MovieSession_get pk
       | None => mret None
       end;
  mret
    match field_row t, field_seat t, field_movie_session t, ms with
    | Some r, Some s, Some _, Some movie_session =>
        match TicketCreateSerializer_validate movie_session r s with
        | inl errors => inl (OutOfBounds errors)
        | inr (movie_session, r, s) =>
            inr {| data_movie_session := movie_session;
                   data_row := r; data_seat := s |}
        end
    | Some _, Some _, Some pk, None => inl (UnknownSession pk)
    | _, _, _, _ => inl NotAnInteger
    end.

(** *** [TicketCreateSerializer(many=True)]: every entry is validated and
    the errors are reported together, one slot per entry. *)
Fixpoint Tickets_each (data : list RawTicket)
  : M (list (ItemError + TicketData)) :=
  match data with
  | [] => mret []
  | t :: data' =>
      r ← Ticket_run_validation t;
      rs ← Tickets_each data';
      mret (r :: rs)
  end.

Definition item_error (r : ItemError + TicketData) : option ItemError :=
  match r with inl e => Some e | inr _ => None end.

Definition item_value (r : ItemError + TicketData) : option TicketData :=
  match r with inl _ => None | inr v => Some v end.

Definition Tickets_run_validation (data : list RawTicket) : M Attrs :=
  rs ← Tickets_each data;
  if forallb (λ r, bool_decide (item_error r = None)) rs
  then mret (omap item_value rs)
  else raise (TicketErrors (item_error <$> rs)).

(** *** [OrderCreateSerializer.validate], lines 229-258: grouping *)

Definition BySession := list (Z * gset (Z * Z)).

Fixpoint group_tickets (tickets_payload : list RawTicket)
    (by_session : BySession) (duplicates : list SeatRef)
  : Error + (BySession * list SeatRef) :=
  match tickets_payload with
  | [] => inr (by_session, duplicates)
  | ticket :: rest =>
      match raw_movie_session ticket, raw_row ticket, raw_seat ticket with
      | Some ms_id, Some row, Some seat =>
          let key := (row, seat) in
          let '(by_session, seen) := dict_setdefault ms_id ∅ by_session in
          if bool_decide (key ∈ seen) then
            group_tickets rest by_session
              (duplicates ++ [ {| ref_movie_session := ms_id;
                                  ref_row := row; ref_seat := seat |} ])
          else
            group_tickets rest
              (dict_set ms_id (seen ∪ {[ key ]}) by_session) duplicates
      | _, _, _ => inl MalformedTickets
      end
  end.

(** *** lines 260-282: the pre-check against the persisted tickets

    [for pair in requested] visits a Python set, whose order is not
    specified; [elements] fixes one.  Statements about the reported
    conflicts speak of membership, not of positions. *)

Definition group_conflicts (ms_id : Z) (requested existing : gset (Z * Z))
  : list SeatRef :=
  (λ pair, {| ref_movie_session := ms_id;
              ref_row := pair.1; ref_seat := pair.2 |}) <$>
    filter (λ pair, pair ∈ existing) (elements requested).

(** The body of [for ms_id, requested in by_session.items()].  Both the
    [if conflicts: raise] and the [return attrs] are statements of the
    body, so it never hands control back to the loop. *)
Definition check_group (attrs : Attrs) (item : Z * gset (Z * Z))
    (conflicts : list SeatRef) : M (Flow (list SeatRef) Attrs) :=
  let '(ms_id, requested) := item in
  existing ← Ticket_filter_values ms_id ((elements requested).*1);
  let conflicts := conflicts ++ group_conflicts ms_id requested existing in
  if bool_decide (conflicts ≠ []) then raise (TakenTickets conflicts)
  else mret (Return attrs).

(** [validate(self, attrs)]; [initial_data] is the value under the
    request's ["tickets"] key, [None] when the key is absent.  The result
    is [None] when the function ends without a [return]. *)
Definition OrderCreateSerializer_validate
    (initial_data : option (list RawTicket)) (attrs : Attrs)
  : M (option Attrs) :=
  let tickets_payload := default [] initial_data in
  if bool_decide (tickets_payload = []) then raise EmptyTickets
  else
    match group_tickets tickets_payload [] [] with
    | inl e => raise e
    | inr (by_session, duplicates) =>
        if bool_decide (duplicates ≠ []) then
          raise (DuplicateTickets duplicates)
        else
          r ← for_each by_session [] (check_group attrs);
          mret match r with inl _ => None | inr attrs => Some attrs end
    end.

(** *** [OrderCreateSerializer.create] *)

Definition new_ticket (order : Order) (ticket_data : TicketData) : Ticket :=
  {| ticket_id := 0;
     row := data_row ticket_data;
     seat := data_seat ticket_data;
     ticket_order := order_id order;
     movie_session_id := session_id (data_movie_session ticket_data) |}.

Definition OrderCreateSerializer_create (user : Z) (tickets_data : Attrs)
  : M Order :=
  atomic (
    order ← Order_create user;
    Ticket_bulk_create (new_ticket order <$> tickets_data);;
    mret order).

(** *** The booking operation

    [OrderViewSet] routes [create] to [OrderCreateSerializer]; the
    framework's create action first validates ([is_valid]: the declared
    fields, then [validate]) and then saves ([create]).  The request body
    carries a [tickets] list; [user] is the authenticated user. *)
Definition is_valid (tickets_payload : list RawTicket) : M Attrs :=
  attrs ← Tickets_run_validation tickets_payload;
  r ← OrderCreateSerializer_validate (Some tickets_payload) attrs;
  match r with
  | Some attrs => mret attrs
  | None => raise ValidateReturnedNone
  end.

Definition createOrder (user : Z) (tickets_payload : list RawTicket)
  : M Order :=
  attrs ← is_valid tickets_payload;
  OrderCreateSerializer_create user attrs.

End Serializers.
Export Serializers.

(** ** Two bookings in flight

    A request is served in two phases, validation ([is_valid]) and save
    ([create]); only the second runs inside [transaction.atomic()].  Two
    requests served at once interleave at phase boundaries. *)

Module Concurrent.

Inductive Call :=
| Pending (user : Z) (tickets_payload : list RawTicket)
| Validated (user : Z) (attrs : Attrs)
| Finished (result : Error + Order).

Definition step_call (c : Call) (w : World) : Call * World :=
  match c with
  | Pending user tickets_payload =>
      match is_valid tickets_payload w with
      | (inl e, w') => (Finished (inl e), w')
      | (inr attrs, w') => (Validated user attrs, w')
      end
  | Validated user attrs =>
      let '(r, w') := OrderCreateSerializer_create user attrs w in
      (Finished r, w')
  | Finished r => (Finished r, w)
  end.

Inductive Turn := First | Second.

Record Config := {
  first : Call;
  second : Call;
  world : World
}.

Definition step (t : Turn) (c : Config) : Config :=
  match t with
  | First =>
      let '(call, w) := step_call (first c) (world c) in
      {| first := call; second := second c; world := w |}
  | Second =>
      let '(call, w) := step_call (second c) (world c) in
      {| first := first c; second := call; world := w |}
  end.

Fixpoint run (sched : list Turn) (c : Config) : Config :=
  match sched with
  | [] => c
  | t :: sched' => run sched' (step t c)
  end.

End Concurrent.
Export Concurrent.

(** ** Predicates used in the statements *)

Module Props.

(** No two persisted tickets on one coordinate. *)
Definition unique_seats (d : DB) : Prop :=
  NoDup (seat_key <$> tickets d).

(** The states reached from [w0] by any sequence of bookings. *)
Inductive reachable (w0 : World) : World → Prop :=
| reach_start : reachable w0 w0
| reach_order w user tickets_payload :
    reachable w0 w →
    reachable w0 (createOrder user tickets_payload w).2.

(** The coordinate [validate] reads off an entry with [int(..)]. *)
Definition raw_key (t : RawTicket) : option (Z * Z * Z) :=
  match raw_movie_session t, raw_row t, raw_seat t with
  | Some ms_id, Some r, Some s => Some (ms_id, r, s)
  | _, _, _ => None
  end.

(** The coordinate the serializer fields read off an entry: the one the
    entry is checked against the hall with and persisted on. *)
Definition field_key (t : RawTicket) : option (Z * Z * Z) :=
  match field_movie_session t, field_row t, field_seat t with
  | Some ms_id, Some r, Some s => Some (ms_id, r, s)
  | _, _, _ => None
  end.

(** The coordinate of a validated entry. *)
Definition data_key (td : TicketData) : Z * Z * Z :=
  (session_id (data_movie_session td), data_row td, data_seat td).

(** How often a coordinate is asked for in a batch, as [validate] reads
    the batch. *)
Definition occurrences (k : Z * Z * Z) (tickets_payload : list RawTicket)
  : nat :=
  length (filter (λ t, raw_key t = Some k) tickets_payload).

(** The coordinates that repeat one already met, reading a list of
    coordinates from left to right with [seen] met before. *)
Fixpoint repeats (seen : gset (Z * Z * Z)) (ks : list (Z * Z * Z))
  : list (Z * Z * Z) :=
  match ks with
  | [] => []
  | k :: ks' =>
      if bool_decide (k ∈ seen) then k :: repeats seen ks'
      else repeats (seen ∪ {[ k ]}) ks'
  end.

(** The grouping dictionary [by_session] holds the coordinates [seen]. *)
Definition holds (by_session : BySession) (seen : gset (Z * Z * Z)) : Prop :=
  ∀ ms_id r s,
    (ms_id, r, s) ∈ seen ↔ (r, s) ∈ default ∅ (dict_get ms_id by_session).

Definition taken (d : DB) (k : Z * Z * Z) : Prop :=
  k ∈ seat_key <$> tickets d.

(** An entry and the ticket persisted for it: the ticket is on the
    coordinate that the serializer fields read off the entry. *)
Definition ticket_for (order : Order) (raw : RawTicket) (t : Ticket)
  : Prop :=
  field_key raw = Some (seat_key t) ∧ ticket_order t = order_id order.

(** Two bookings racing for the seat [(ms_id, r, s)] of a session in
    [hall]: a call that has not saved yet, a call that lost, a call that
    won, and what holds of the two calls at every point of the race. *)
Definition one_seat (ms_id r s : Z) : list RawTicket :=
  [ {| raw_movie_session := Some ms_id; raw_row := Some r;
       raw_seat := Some s;
       field_movie_session := Some ms_id; field_row := Some r;
       field_seat := Some s |} ].






(** A computation that leaves the tables as they are. *)
Definition read_only {A} (m : M A) : Prop :=
  ∀ w, db (m w).2 = db w.

End Props.
Export Props.


(** ** Sample data for the worked examples *)

Module Samples.

Definition blue_hall : CinemaHall :=
  {| hall_name := "Blue"; rows := 10; seats_in_row := 15 |}.

(** Sessions 1, 2 and 5 play in the blue hall; nothing is sold yet. *)
Definition fresh : World :=
  {| db := {| sessions := {[ 1 := blue_hall; 2 := blue_hall;
                             5 := blue_hall ]};
              orders := []; tickets := [] |};
     log := [] |}.

(** [{"movie_session": ms, "row": r, "seat": s}] with three JSON
    integers, which both readers read alike. *)
Definition request (ms r s : Z) : RawTicket :=
  {| raw_movie_session := Some ms; raw_row := Some r; raw_seat := Some s;
     field_movie_session := Some ms; field_row := Some r;
     field_seat := Some s |}.

(** The same with the row written ["r.0"]: the serializer field reads
    [r], [int(..)] raises. *)
Definition request_dotted_row (ms r s : Z) : RawTicket :=
  {| raw_movie_session := Some ms; raw_row := None; raw_seat := Some s;
     field_movie_session := Some ms; field_row := Some r;
     field_seat := Some s |}.

(** The same with a row such as [r.9] or, for 1, [true]: [int(..)]
    returns [r], the serializer field rejects the value. *)
Definition request_fraction_row (ms r s : Z) : RawTicket :=
  {| raw_movie_session := Some ms; raw_row := Some r; raw_seat := Some s;
     field_movie_session := Some ms; field_row := None;
     field_seat := Some s |}.

Definition seat_ref (ms r s : Z) : SeatRef :=
  {| ref_movie_session := ms; ref_row := r; ref_seat := s |}.

(** After user 7 has bought row 4, seat 4 of session 2. *)
Definition sold_2_4_4 : World := (createOrder 7 [request 2 4 4] fresh).2.

(** After user 7 has bought row 4, seat 4 of both sessions. *)
Definition sold_both : World :=
  (createOrder 7 [request 1 4 4; request 2 4 4] fresh).2.

End Samples.
Export Samples.

(** ** The session detail view: [get_taken_places] *)

Module Detail.

(** [MovieSessionDetailSerializer.get_taken_places], lines 111-113: the
    [{"row": t.row, "seat": t.seat}] of every ticket of the session, as
    [(row, seat)] pairs.  The queryset has no [order_by], so the order
    in which the database hands the rows over is not fixed by the code;
    the list here follows the table of the model, and statements about
    it speak of which places it holds and how often, not of where. *)
Definition get_taken_places (tickets : list Ticket) (obj : MovieSession)
  : list (Z * Z) :=
  (λ t, (row t, seat t)) <$>
    filter (λ t, movie_session_id t = session_id obj) tickets.

End Detail.
Export Detail.

(** ** Further predicates *)

Module Invariants.

(** Statements that only read. *)
Definition is_read (q : Query) : bool :=
  match q with
  | QSessionGet _ | QTicketFilter _ _ => true
  | QOrderCreate _ | QTicketInsert _ => false
  end.

(** Every persisted ticket belongs to a known session and sits inside
    the grid of that session's hall. *)
Definition in_grid (d : DB) : Prop :=
  ∀ t, t ∈ tickets d →
    ∃ hall, sessions d !! movie_session_id t = Some hall ∧
            1 ≤ row t ≤ rows hall ∧ 1 ≤ seat t ≤ seats_in_row hall.

(** The [(row, seat)] pairs a batch asks for in session [ms_id], as the
    serializer fields read them. *)
Definition requested_in (ms_id : Z) (tickets_payload : list RawTicket)
  : list (Z * Z) :=
  omap (λ t, match field_key t with
             | Some (m, r, s) =>
                 if bool_decide (m = ms_id) then Some (r, s) else None
             | None => None
             end) tickets_payload.

(** A computation that changes no table and sends only reads. *)
Definition only_reads {A} (m : M A) : Prop :=
  ∀ w, db (m w).2 = db w ∧
       ∃ new, log (m w).2 = log w ++ new ∧
              Forall (λ q, is_read q = true) new.

(** The two readers do not contradict each other on an entry: when both
    read a coordinate, it is the same one. *)
Definition readers_agree (t : RawTicket) : Prop :=
  ∀ k k', field_key t = Some k → raw_key t = Some k' → k = k'.

(** An entry that can be booked in [d]: both readers read the same
    three integers, a known session, a seat inside the grid of its
    hall, not sold yet. *)
Definition bookable (d : DB) (t : RawTicket) : Prop :=
  ∃ ms_id r s hall,
    field_key t = Some (ms_id, r, s) ∧
    raw_key t = Some (ms_id, r, s) ∧
    sessions d !! ms_id = Some hall ∧
    1 ≤ r ≤ rows hall ∧ 1 ≤ s ≤ seats_in_row hall ∧
    ¬ taken d (ms_id, r, s).

(** A validated entry whose session is the one the store holds and
    whose seat is inside the grid of its hall. *)
Definition data_in_grid (d : DB) (td : TicketData) : Prop :=
  sessions d !! session_id (data_movie_session td) =
    Some (cinema_hall (data_movie_session td)) ∧
  1 ≤ data_row td ≤ rows (cinema_hall (data_movie_session td)) ∧
  1 ≤ data_seat td ≤ seats_in_row (cinema_hall (data_movie_session td)).

(** [obj] is a session of the store, with the hall the store gives it. *)
Definition known_session (d : DB) (obj : MovieSession) : Prop :=
  sessions d !! session_id obj = Some (cinema_hall obj).

End Invariants.
Export Invariants.

(** ** The views: [cinema/views.py] *)

Module Views.

(** A row of the movie table, with the ids of its genres and actors. *)
Record Movie := {
  movie_id : Z;
  movie_title : string;
  movie_description : string;
  movie_duration : Z;
  movie_genres : list Z;
  movie_actors : list Z
}.

#[global] Instance Movie_eq_dec : EqDecision Movie.
Proof. solve_decision. Defined.

(** [s.split(",")] *)
Fixpoint split_comma (s : string) : list string :=
  match s with
  | EmptyString => [EmptyString]
  | String c s' =>
      if bool_decide (c = ","%char) then EmptyString :: split_comma s'
      else
        match split_comma s' with
        | piece :: pieces => String c piece :: pieces
        | [] => [String c EmptyString]
        end
  end.

Section Movies.
(** Python's [int(..)] on a string ([None] when it raises [ValueError])
    and [str.strip()], and the database's case-insensitive containment
    test behind [title__icontains]. *)
Context (py_int : string → option Z) (py_strip : string → string)
        (icontains : string → string → bool).

(** [[int(pk) for pk in s.split(",") if pk.strip()]]; [None] when some
    [int(pk)] raises. *)
Definition parse_ids (s : string) : option (list Z) :=
  mapM py_int (filter (λ pk, py_strip pk ≠ EmptyString) (split_comma s)).

(** [queryset.filter(<relation>__id__in=ids)]: the join yields a movie
    once for each of its related ids found in [ids]. *)
Definition filter_related (related : Movie → list Z) (ids : list Z)
    (queryset : list Movie) : list Movie :=
  m ← queryset; (λ _, m) <$> filter (λ g, g ∈ ids) (related m).

(** [if param: try: queryset = queryset.filter(..) except ValueError: pass] *)
Definition filter_by_ids (related : Movie → list Z) (param : option string)
    (queryset : list Movie) : list Movie :=
  match param with
  | Some s =>
      if bool_decide (s ≠ EmptyString) then
        match parse_ids s with
        | Some ids => filter_related related ids queryset
        | None => queryset
        end
      else queryset
  | None => queryset
  end.

(** [MovieViewSet.get_queryset], lines 44-72; [genres], [actors] and
    [title] are [query_params.get(..)], [None] for an absent key. *)
Definition MovieViewSet_get_queryset (movies : list Movie)
    (genres actors title : option string) : list Movie :=
  let queryset := movies in
  let queryset := filter_by_ids movie_genres genres queryset in
  let queryset := filter_by_ids movie_actors actors queryset in
  let queryset :=
    match title with
    | Some t =>
        if bool_decide (t ≠ EmptyString)
        then filter (λ m, icontains (movie_title m) t = true) queryset
        else queryset
    | None => queryset
    end in
  remove_dups queryset.

(** Whether a parameter puts an id filter to work, and with which ids. *)
Definition active_ids (param : option string) : option (list Z) :=
  match param with
  | Some s => if bool_decide (s ≠ EmptyString) then parse_ids s else None
  | None => None
  end.

Definition active_title (title : option string) : option string :=
  match title with
  | Some t => if bool_decide (t ≠ EmptyString) then Some t else None
  | None => None
  end.

End Movies.

Section Sessions.
(** Calendar dates, and what [parse_date] makes of a string. *)
Context {Date : Type} `{EqDecision Date}.

Inductive Parsed :=
| Raises
| NotADate
| ADate (d : Date).

(** A row of the session table: the session, its movie and the date of
    its show time. *)
Record SessionRow := {
  row_session : MovieSession;
  row_movie : Z;
  row_date : Date
}.

Context (py_int : string → option Z) (parse_date : string → Parsed).

(** [MovieSessionViewSet.get_queryset], lines 87-104.  The [ValueError]
    of [int(..)] is caught; [parse_date] is called outside any [try],
    so the result is [None] when it raises. *)
Definition MovieSessionViewSet_get_queryset (rows : list SessionRow)
    (movie date : option string) : option (list SessionRow) :=
  let qs := rows in
  let qs :=
    match movie with
    | Some movie_id =>
        if bool_decide (movie_id ≠ EmptyString) then
          match py_int movie_id with
          | Some pk => filter (λ r, row_movie r = pk) qs
          | None => qs
          end
        else qs
    | None => qs
    end in
  match date with
  | Some date_str =>
      if bool_decide (date_str ≠ EmptyString) then
        match parse_date date_str with
        | Raises => None
        | NotADate => Some qs
        | ADate date_obj => Some (filter (λ r, row_date r = date_obj) qs)
        end
      else Some qs
  | None => Some qs
  end.



End Sessions.

Section Orders.
(** The creation time the store records for an order. *)
Context (created_at : Order → Z).

(** [a] comes before [b] under [order_by("-created_at")]. *)
Definition newer (a b : Order) : Prop := created_at b ≤ created_at a.

#[global] Instance newer_dec (a b : Order) : Decision (newer a b).
Proof. unfold newer. apply _. Defined.

(** [OrderViewSet.get_queryset], lines 120-129. *)
Definition OrderViewSet_get_queryset (d : DB) (user : Z) : list Order :=
  merge_sort newer (filter (λ o, order_user o = user) (orders d)).



End Orders.

(** Order and ticket rows refer to ids that have been given out. *)
Definition ids_issued (d : DB) : Prop :=
  (∀ o, o ∈ orders d → order_id o ≤ Z.of_nat (length (orders d))) ∧
  (∀ t, t ∈ tickets d → ticket_order t ≤ Z.of_nat (length (orders d))).

End Views.
Export Views.

(** ** Stand-ins to run the views on examples

    The statements about the views hold for every [int], [strip],
    [icontains] and [parse_date]; these simple ones only serve to
    evaluate them on sample requests. *)

Module ViewSamples.

(** Reads a non-empty string of ASCII digits. *)
Fixpoint digits (s : string) (acc : Z) : option Z :=
  match s with
  | EmptyString => Some acc
  | String c s' =>
      let n := Z.of_nat (nat_of_ascii c) in
      if bool_decide (48 ≤ n ≤ 57) then digits s' (10 * acc + (n - 48))
      else None
  end.

Definition sample_int (s : string) : option Z :=
  match s with
  | EmptyString => None
  | _ => digits s 0
  end.

(** Leaves the string as it is: enough for pieces without white space. *)
Definition sample_strip (s : string) : string := s.

(** Case-sensitive containment. *)
Fixpoint sample_contains (s t : string) : bool :=
  String.prefix t s ||
  match s with
  | EmptyString => false
  | String _ s' => sample_contains s' t
  end.

(** Dates as day numbers, written in digits. *)
Definition sample_date (s : string) : @Parsed Z :=
  match sample_int s with
  | Some d => if bool_decide (d ≤ 366) then ADate d else Raises
  | None => NotADate
  end.

Definition alien : Movie :=
  {| movie_id := 1; movie_title := "Alien"; movie_description := "";
     movie_duration := 117; movie_genres := [1; 2]; movie_actors := [10] |}.

Definition heat : Movie :=
  {| movie_id := 2; movie_title := "Heat"; movie_description := "";
     movie_duration := 170; movie_genres := [3]; movie_actors := [11; 12] |}.

End ViewSamples.
Export ViewSamples.
(** ** Hall geometry *)

Section GeometryFacts.
Context (hall : CinemaHall).

Lemma geometry_errors_row (row seat : Z) :
  geometry_errors hall row seat !! "row" =
    if bool_decide (1 ≤ row ≤ rows hall) then None
    else Some (row_message hall).
Proof.
  unfold geometry_errors.
  repeat case_bool_decide; simpl; simplify_map_eq; try done; lia.
Qed.

Lemma geometry_errors_seat (row seat : Z) :
  geometry_errors hall row seat !! "seat" =
    if bool_decide (1 ≤ seat ≤ seats_in_row hall) then None
    else Some (seat_message hall).
Proof.
  unfold geometry_errors.
  repeat case_bool_decide; simpl; simplify_map_eq; try done; lia.
Qed.

Lemma geometry_errors_empty (row seat : Z) :
  geometry_errors hall row seat = ∅ ↔
  1 ≤ row ≤ rows hall ∧ 1 ≤ seat ≤ seats_in_row hall.
Proof.
  split.
  - intros He.
    pose proof (geometry_errors_row row seat) as Hr.
    pose proof (geometry_errors_seat row seat) as Hs.
    rewrite He, lookup_empty in Hr, Hs.
    repeat case_bool_decide; done.
  - intros [Hr Hs]. unfold geometry_errors.
    repeat case_bool_decide; simpl; try done; lia.
Qed.

Lemma geometry_errors_both (row seat : Z) :
  ¬ (1 ≤ row ≤ rows hall) → ¬ (1 ≤ seat ≤ seats_in_row hall) →
  geometry_errors hall row seat =
    {[ "row" := row_message hall; "seat" := seat_message hall ]}.
Proof.
  intros Hr Hs. unfold geometry_errors.
  rewrite !orb_true_intro.
  - apply insert_insert_ne. done.
  - rewrite !bool_decide_eq_true. lia.
  - rewrite !bool_decide_eq_true. lia.
Qed.
End GeometryFacts.

Lemma validate_accepts (movie_session : MovieSession) (row seat : Z) :
  TicketCreateSerializer_validate movie_session row seat =
    if bool_decide (1 ≤ row ≤ rows (cinema_hall movie_session) ∧
                    1 ≤ seat ≤ seats_in_row (cinema_hall movie_session))
    then inr (movie_session, row, seat)
    else inl (geometry_errors (cinema_hall movie_session) row seat).
Proof.
  unfold TicketCreateSerializer_validate.
  pose proof (geometry_errors_empty (cinema_hall movie_session) row seat) as He.
  repeat case_bool_decide; try done; tauto.
Qed.

(** The text of a bound is the bound: two halls whose messages agree
    have the same range. *)
Lemma string_length_app (s t : string) :
  String.length (s +:+ t) = (String.length s + String.length t)%nat.
Proof. induction s as [|a s IH]; simpl; [done | by rewrite IH]. Qed.

Lemma string_app_cancel_r (s1 s2 t : string) :
  s1 +:+ t = s2 +:+ t → s1 = s2.
Proof.
  revert s2. induction s1 as [|a s1 IH]; intros [|b s2] H.
  - done.
  - apply (f_equal String.length) in H.
    rewrite !string_length_app in H. simpl in H. lia.
  - apply (f_equal String.length) in H.
    rewrite !string_length_app in H. simpl in H. lia.
  - simpl in H. injection H as -> H. f_equal. by apply IH.
Qed.

Lemma row_message_range (h1 h2 : CinemaHall) :
  row_message h1 = row_message h2 → rows h1 = rows h2.
Proof.
  unfold row_message, py_str. intros H.
  apply (inj (String.app _)), string_app_cancel_r in H.
  by apply (inj pretty) in H.
Qed.

Lemma seat_message_range (h1 h2 : CinemaHall) :
  seat_message h1 = seat_message h2 → seats_in_row h1 = seats_in_row h2.
Proof.
  unfold seat_message, py_str. intros H.
  do 2 apply (inj (String.app _)) in H. apply string_app_cancel_r in H.
  by apply (inj pretty) in H.
Qed.

(** C5. For every hall and all integers [row], [seat], the geometry check
    accepts the coordinate exactly when [1 ≤ row ≤ rows] and
    [1 ≤ seat ≤ seats_in_row]; otherwise it raises the error dictionary,
    in which an out-of-range row is reported under ["row"] with the text
    naming [[1..rows]] of that hall and an out-of-range seat under
    ["seat"] with the text naming [[1..seats_in_row]]. *)
Theorem seat_geometry_check (movie_session : MovieSession) (row seat : Z) :
  let hall := cinema_hall movie_session in
  let result := TicketCreateSerializer_validate movie_session row seat in
  (result = inr (movie_session, row, seat) ↔
     1 ≤ row ≤ rows hall ∧ 1 ≤ seat ≤ seats_in_row hall) ∧
  (result = inr (movie_session, row, seat) ∨
   result = inl (geometry_errors hall row seat)) ∧
  geometry_errors hall row seat !! "row" =
    (if bool_decide (1 ≤ row ≤ rows hall) then None
     else Some ("Row must be within [1.." +:+ py_str (rows hall)
                  +:+ "] for this cinema hall.")) ∧
  geometry_errors hall row seat !! "seat" =
    (if bool_decide (1 ≤ seat ≤ seats_in_row hall) then None
     else Some ("Seat must be within [1.." +:+ py_str (seats_in_row hall)
                  +:+ "] for this cinema hall.")).
Proof.
  intros hall result. subst result hall.
  rewrite validate_accepts, geometry_errors_row, geometry_errors_seat.
  split_and!.
  - case_bool_decide; split; intros; done.
  - case_bool_decide; [by left | by right].
  - reflexivity.
  - reflexivity.
Qed.

Example out_of_bounds_row_11 :
  TicketCreateSerializer_validate
    {| session_id := 1;
       cinema_hall := {| hall_name := "Blue"; rows := 10;
                         seats_in_row := 15 |} |} 11 3
  = inl {[ "row" := "Row must be within [1..10] for this cinema hall." ]}.
Proof. vm_compute. reflexivity. Qed.

Example out_of_bounds_seat_0 :
  TicketCreateSerializer_validate
    {| session_id := 1;
       cinema_hall := {| hall_name := "Blue"; rows := 10;
                         seats_in_row := 15 |} |} 2 0
  = inl {[ "seat" := "Seat must be within [1..15] for this cinema hall." ]}.
Proof. vm_compute. reflexivity. Qed.

(** C10. When both the row and the seat of a request lie outside the
    hall's grid, the one rejection carries both field errors, each with
    its range. *)
Theorem both_fields_reported (movie_session : MovieSession) (row seat : Z) :
  ¬ (1 ≤ row ≤ rows (cinema_hall movie_session)) →
  ¬ (1 ≤ seat ≤ seats_in_row (cinema_hall movie_session)) →
  TicketCreateSerializer_validate movie_session row seat =
    inl {[ "row" := "Row must be within [1.." +:+
                      py_str (rows (cinema_hall movie_session)) +:+
                      "] for this cinema hall.";
           "seat" := "Seat must be within [1.." +:+
                      py_str (seats_in_row (cinema_hall movie_session)) +:+
                      "] for this cinema hall." ]}.
Proof.
  intros Hr Hs. rewrite validate_accepts.
  rewrite bool_decide_eq_false_2 by tauto.
  by rewrite geometry_errors_both.
Qed.

(** Row 11 and seat 0 in the 10 × 15 hall. *)
Lemma both_fields_reported_witness :
  TicketCreateSerializer_validate
    {| session_id := 1;
       cinema_hall := {| hall_name := "Blue"; rows := 10;
                         seats_in_row := 15 |} |} 11 0
  = inl {[ "row" := "Row must be within [1..10] for this cinema hall.";
           "seat" := "Seat must be within [1..15] for this cinema hall." ]}.
Proof.
  apply (both_fields_reported
           {| session_id := 1;
              cinema_hall := {| hall_name := "Blue"; rows := 10;
                                seats_in_row := 15 |} |} 11 0);
    simpl; lia.
Defined.

(** ** Availability *)

(** C6. The availability of a session is
    [max(capacity of its hall − persisted tickets of the session, 0)] in
    every state of the ticket table; it is never negative, and it is [0]
    whenever the tickets reach or outnumber the capacity. *)
Theorem tickets_available_spec (tickets : list Ticket) (obj : MovieSession) :
  let sold :=
    Z.of_nat (length (filter (λ t, movie_session_id t = session_id obj)
                             tickets)) in
  get_tickets_available tickets obj =
    Z.max (capacity (cinema_hall obj) - sold) 0 ∧
  0 ≤ get_tickets_available tickets obj ∧
  (get_tickets_available tickets obj = 0 ↔
   capacity (cinema_hall obj) ≤ sold).
Proof.
  unfold get_tickets_available, count_tickets. simpl. lia.
Qed.

(** A 10 × 15 hall with no ticket sold has 150 seats left; three tickets
    in a 1 × 2 hall leave none. *)
Example tickets_available_blue :
  get_tickets_available [] {| session_id := 1; cinema_hall := blue_hall |}
    = 150 ∧
  get_tickets_available
    [ {| ticket_id := 1; row := 1; seat := 1; ticket_order := 1;
         movie_session_id := 1 |};
      {| ticket_id := 2; row := 1; seat := 2; ticket_order := 1;
         movie_session_id := 1 |};
      {| ticket_id := 3; row := 1; seat := 3; ticket_order := 2;
         movie_session_id := 1 |} ]
    {| session_id := 1;
       cinema_hall := {| hall_name := "Box"; rows := 1;
                         seats_in_row := 2 |} |} = 0.
Proof. split; reflexivity. Qed.

(** ** Reasoning about store computations *)

Lemma bind_inv {A B} (m : M A) (f : A → M B) (w w' : World) (r : Error + B) :
  (m ≫= f) w = (r, w') →
  (∃ e, m w = (inl e, w') ∧ r = inl e) ∨
  (∃ a w1, m w = (inr a, w1) ∧ f a w1 = (r, w')).
Proof.
  unfold mbind, M_bind. destruct (m w) as [[e|a] w1]; intros H.
  - left. exists e. by simplify_eq.
  - right. by exists a, w1.
Qed.

Lemma bind_ok {A B} (m : M A) (f : A → M B) (w w1 : World) (a : A) :
  m w = (inr a, w1) → (m ≫= f) w = f a w1.
Proof. unfold mbind, M_bind. by intros ->. Qed.

Lemma bind_err {A B} (m : M A) (f : A → M B) (w w1 : World) (e : Error) :
  m w = (inl e, w1) → (m ≫= f) w = (inl e, w1).
Proof. unfold mbind, M_bind. by intros ->. Qed.

Lemma read_only_ret {A} (a : A) : read_only (mret a).
Proof. done. Qed.

Lemma read_only_raise {A} (e : Error) : read_only (@raise A e).
Proof. done. Qed.

Lemma read_only_query (q : Query) : read_only (query q).
Proof. done. Qed.

Lemma read_only_get_db : read_only get_db.
Proof. done. Qed.

Lemma read_only_bind {A B} (m : M A) (f : A → M B) :
  read_only m → (∀ a, read_only (f a)) → read_only (m ≫= f).
Proof.
  intros Hm Hf w. unfold mbind, M_bind.
  specialize (Hm w). destruct (m w) as [[e|a] w1]; simpl in *; [done|].
  by rewrite Hf.
Qed.

Create HintDb store.

#[local] Hint Resolve read_only_ret read_only_raise read_only_query
  read_only_get_db : store.

Ltac read_only_tac :=
  repeat first
    [ apply read_only_bind; [| intros ?]
    | progress eauto with store
    | case_match ].

Lemma read_only_MovieSession_get (pk : Z) : read_only (MovieSession_get pk).
Proof. unfold MovieSession_get. read_only_tac. Qed.

Lemma read_only_Ticket_filter_values (ms_id : Z) (row__in : list Z) :
  read_only (Ticket_filter_values ms_id row__in).
Proof. unfold Ticket_filter_values. read_only_tac. Qed.

#[local] Hint Resolve read_only_MovieSession_get
  read_only_Ticket_filter_values : store.

Lemma read_only_Ticket_run_validation (t : RawTicket) :
  read_only (Ticket_run_validation t).
Proof. unfold Ticket_run_validation. read_only_tac. Qed.

#[local] Hint Resolve read_only_Ticket_run_validation : store.

Lemma read_only_Tickets_each (data : list RawTicket) :
  read_only (Tickets_each data).
Proof. induction data as [|t data IH]; simpl; read_only_tac. Qed.

#[local] Hint Resolve read_only_Tickets_each : store.

Lemma read_only_Tickets_run_validation (data : list RawTicket) :
  read_only (Tickets_run_validation data).
Proof. unfold Tickets_run_validation. read_only_tac. Qed.

Lemma read_only_for_each {A S R} (xs : list A) (s : S)
    (body : A → S → M (Flow S R)) :
  (∀ x s, read_only (body x s)) → read_only (for_each xs s body).
Proof.
  intros Hb. revert s. induction xs as [|x xs IH]; intros s; simpl;
    read_only_tac.
Qed.

Lemma read_only_check_group (attrs : Attrs) (item : Z * gset (Z * Z))
    (conflicts : list SeatRef) :
  read_only (check_group attrs item conflicts).
Proof. destruct item. unfold check_group. read_only_tac. Qed.

Lemma read_only_validate (initial_data : option (list RawTicket))
    (attrs : Attrs) :
  read_only (OrderCreateSerializer_validate initial_data attrs).
Proof.
  unfold OrderCreateSerializer_validate.
  repeat case_match; eauto with store.
  apply read_only_bind; [| intros ?; eauto with store].
  apply read_only_for_each. intros. apply read_only_check_group.
Qed.

#[local] Hint Resolve read_only_Tickets_run_validation read_only_validate
  : store.

Lemma read_only_is_valid (tickets_payload : list RawTicket) :
  read_only (is_valid tickets_payload).
Proof. unfold is_valid. read_only_tac. Qed.

(** ** What the validation phase returns *)

Lemma MovieSession_get_eq (pk : Z) (w : World) :
  MovieSession_get pk w =
    (inr ((λ hall, {| session_id := pk; cinema_hall := hall |}) <$>
            sessions (db w) !! pk),
     {| db := db w; log := log w ++ [QSessionGet pk] |}).
Proof. reflexivity. Qed.

Lemma Ticket_run_validation_ok (t : RawTicket) (w : World) :
  ∃ r w', Ticket_run_validation t w = (inr r, w') ∧
          ∀ td, r = inr td → field_key t = Some (data_key td).
Proof.
  unfold Ticket_run_validation, field_key.
  destruct t as [im ir iz [pk|] [r|] [s|]]; simpl;
    try (eexists _, _; split; [reflexivity | by intros ? [=]]).
  erewrite bind_ok by apply MovieSession_get_eq.
  destruct (sessions (db w) !! pk) as [hall|]; simpl;
    try (eexists _, _; split; [reflexivity | by intros ? [=]]).
  rewrite validate_accepts. case_bool_decide;
    eexists _, _; (split; [reflexivity|]); intros td [= <-]; done.
Qed.

Lemma Tickets_each_ok (data : list RawTicket) (w : World) :
  ∃ rs w', Tickets_each data w = (inr rs, w') ∧
           Forall2 (λ t r, ∀ td, r = inr td → field_key t = Some (data_key td))
                   data rs.
Proof.
  revert w. induction data as [|t data IH]; intros w; simpl.
  - by eexists [], _.
  - destruct (Ticket_run_validation_ok t w) as (r & w1 & Hr & Hk).
    destruct (IH w1) as (rs & w2 & Hrs & Hks).
    exists (r :: rs), w2. split; [| by constructor].
    erewrite bind_ok by exact Hr. erewrite bind_ok by exact Hrs. done.
Qed.

Lemma Tickets_run_validation_ok (data : list RawTicket) (attrs : Attrs)
    (w w' : World) :
  Tickets_run_validation data w = (inr attrs, w') →
  Forall2 (λ t td, field_key t = Some (data_key td)) data attrs.
Proof.
  unfold Tickets_run_validation.
  destruct (Tickets_each_ok data w) as (rs & w1 & Hrs & Hks).
  erewrite bind_ok by exact Hrs.
  destruct (forallb _ rs) eqn:Hall; [| by intros [=]].
  intros [= <- <-]. clear Hrs.
  induction Hks as [|t r data rs Hk Hks IH]; simpl in *; [constructor|].
  apply andb_prop in Hall as [Hr Hall].
  destruct r as [e|td]; simpl in *; [done|].
  constructor; [by apply Hk | by apply IH].
Qed.

Lemma validate_returns_attrs (initial_data : option (list RawTicket))
    (attrs a : Attrs) (w w' : World) :
  OrderCreateSerializer_validate initial_data attrs w = (inr (Some a), w') →
  a = attrs.
Proof.
  unfold OrderCreateSerializer_validate.
  case_bool_decide; [by intros [=]|].
  destruct (group_tickets _ _ _) as [e|[by_session duplicates]];
    [by intros [=]|].
  case_bool_decide; [by intros [=]|].
  destruct by_session as [|[ms_id requested] rest]; simpl; [by intros [=]|].
  intros Hv. apply bind_inv in Hv as [(e & _ & [=])|(r & w1 & Hr & Hv)].
  destruct r as [conflicts|r]; simplify_eq/=.
  apply bind_inv in Hr as [(e & _ & [=])|(f & w2 & Hf & Hr)].
  unfold check_group in Hf.
  apply bind_inv in Hf as [(e & _ & [=])|(ex & w3 & Hex & Hf)].
  case_bool_decide; [by injection Hf|].
  injection Hf as <- <-. injection Hr as <- <-. by injection Hv as <-.
Qed.

Lemma is_valid_ok (tickets_payload : list RawTicket) (attrs : Attrs)
    (w w' : World) :
  is_valid tickets_payload w = (inr attrs, w') →
  Forall2 (λ t td, field_key t = Some (data_key td)) tickets_payload attrs.
Proof.
  unfold is_valid. intros H.
  apply bind_inv in H as [(e & _ & [=])|(a0 & w1 & Ha0 & H)].
  apply bind_inv in H as [(e & _ & [=])|(r & w2 & Hr & H)].
  destruct r as [a|]; [| by simplify_eq/=].
  injection H as <- <-.
  apply validate_returns_attrs in Hr as ->.
  by eapply Tickets_run_validation_ok.
Qed.

(** ** The commit phase *)

Lemma Order_create_eq (user : Z) (w : World) :
  Order_create user w =
    (inr {| order_id := Z.of_nat (length (orders (db w))) + 1;
            order_user := user |},
     {| db := {| sessions := sessions (db w);
                 orders := orders (db w) ++
                   [ {| order_id := Z.of_nat (length (orders (db w))) + 1;
                        order_user := user |} ];
                 tickets := tickets (db w) |};
        log := log w ++ [QOrderCreate user] |}).
Proof. reflexivity. Qed.

Lemma Ticket_insert_eq (t : Ticket) (w : World) :
  Ticket_insert t w =
    if violates_unique (db w) t then
      (inl IntegrityError,
       {| db := db w; log := log w ++ [QTicketInsert (seat_key t)] |})
    else
      (inr (),
       {| db := {| sessions := sessions (db w);
                   orders := orders (db w);
                   tickets := tickets (db w) ++
                     [ {| ticket_id := Z.of_nat (length (tickets (db w))) + 1;
                          row := row t; seat := seat t;
                          ticket_order := ticket_order t;
                          movie_session_id := movie_session_id t |} ] |};
          log := log w ++ [QTicketInsert (seat_key t)] |}).
Proof.
  unfold Ticket_insert, mbind, M_bind. simpl.
  by destruct (violates_unique (db w) t).
Qed.

Lemma Ticket_insert_unique (t : Ticket) (w : World) :
  unique_seats (db w) → unique_seats (db (Ticket_insert t w).2).
Proof.
  intros Hu. rewrite Ticket_insert_eq. unfold violates_unique.
  case_bool_decide as Hin; simpl; [done|].
  unfold unique_seats in *. simpl. rewrite fmap_app. simpl.
  apply NoDup_app. split_and!; [done| |apply NoDup_singleton].
  intros k Hk ->%list_elem_of_singleton. done.
Qed.

Lemma Ticket_bulk_create_unique (objs : list Ticket) (w : World) :
  unique_seats (db w) → unique_seats (db (Ticket_bulk_create objs w).2).
Proof.
  revert w. induction objs as [|t objs IH]; intros w Hu; simpl; [done|].
  pose proof (Ticket_insert_unique t w Hu) as Hu1.
  unfold mbind, M_bind.
  destruct (Ticket_insert t w) as [[e|[]] w1]; simpl in *; [done|].
  by apply IH.
Qed.

(** A batch insert that goes through appends one row per object, in
    order, and touches nothing else. *)
Lemma Ticket_bulk_create_ok (objs : list Ticket) (w w' : World) :
  Ticket_bulk_create objs w = (inr (), w') →
  sessions (db w') = sessions (db w) ∧
  orders (db w') = orders (db w) ∧
  ∃ added, tickets (db w') = tickets (db w) ++ added ∧
           Forall2 (λ n t, seat_key t = seat_key n ∧
                           ticket_order t = ticket_order n) objs added.
Proof.
  revert w. induction objs as [|n objs IH]; intros w; simpl.
  - intros [= <-]. split_and!; try done. exists []. by rewrite app_nil_r.
  - intros H. apply bind_inv in H as [(e & _ & [=])|([] & w1 & Hi & H)].
    rewrite Ticket_insert_eq in Hi.
    destruct (violates_unique (db w) n); [done|].
    injection Hi as <-. apply IH in H as (Hs & Ho & added & Ht & Hf).
    simpl in *. split_and!; try done.
    eexists (_ :: added). rewrite Ht, <- app_assoc. split; [done|].
    by constructor.
Qed.

Lemma atomic_inv {A} (body : M A) (w w' : World) (r : Error + A) :
  atomic body w = (r, w') →
  (∃ e w1, body w = (inl e, w1) ∧ r = inl e ∧ db w' = db w) ∨
  (∃ a, body w = (inr a, w') ∧ r = inr a).
Proof.
  unfold atomic. destruct (body w) as [[e|a] w1]; intros [= <- <-].
  - left. by exists e, w1.
  - right. by exists a.
Qed.

Lemma Order_create_inv {B} (user : Z) (f : Order → M B) (w w' : World)
    (r : Error + B) :
  (Order_create user ≫= f) w = (r, w') →
  f {| order_id := Z.of_nat (length (orders (db w))) + 1;
       order_user := user |}
    {| db := {| sessions := sessions (db w);
                orders := orders (db w) ++
                  [ {| order_id := Z.of_nat (length (orders (db w))) + 1;
                       order_user := user |} ];
                tickets := tickets (db w) |};
       log := log w ++ [QOrderCreate user] |} = (r, w').
Proof. by erewrite bind_ok by apply Order_create_eq. Qed.

Lemma Ticket_bulk_create_err (objs : list Ticket) (w w' : World) (e : Error) :
  Ticket_bulk_create objs w = (inl e, w') → e = IntegrityError.
Proof.
  revert w. induction objs as [|t objs IH]; intros w; simpl; [done|].
  intros [(e1 & Hi & [= ->])|([] & w3 & _ & H)]%bind_inv; [|by eapply IH].
  rewrite Ticket_insert_eq in Hi. by case_match; simplify_eq.
Qed.

Lemma create_err (user : Z) (tickets_data : Attrs) (w w' : World) (e : Error) :
  OrderCreateSerializer_create user tickets_data w = (inl e, w') →
  db w' = db w ∧ e = IntegrityError.
Proof.
  unfold OrderCreateSerializer_create.
  intros [(e' & w1 & Hb & [= ->] & Hdb)|(a & _ & [=])]%atomic_inv.
  split; [done|].
  apply Order_create_inv in Hb.
  apply bind_inv in Hb as [(e & Hb & [= ->])|(? & ? & _ & [=])].
  by eapply Ticket_bulk_create_err.
Qed.

Lemma create_ok (user : Z) (tickets_data : Attrs) (w w' : World)
    (order : Order) :
  OrderCreateSerializer_create user tickets_data w = (inr order, w') →
  order_user order = user ∧
  sessions (db w') = sessions (db w) ∧
  orders (db w') = orders (db w) ++ [order] ∧
  ∃ added, tickets (db w') = tickets (db w) ++ added ∧
           Forall2 (λ td t, seat_key t = data_key td ∧
                            ticket_order t = order_id order)
                   tickets_data added.
Proof.
  unfold OrderCreateSerializer_create.
  intros [(e' & w1 & _ & [=] & _)|(a & Hb & [= <-])]%atomic_inv.
  apply Order_create_inv in Hb.
  apply bind_inv in Hb as [(e & _ & [=])|([] & w3 & Hb & [= <- <-])].
  apply Ticket_bulk_create_ok in Hb as (Hs & Ho & added & Ht & Hf).
  simpl in *.
  split_and!; try done. exists added. split; [done|].
  apply Forall2_fmap_l in Hf. eapply Forall2_impl; [exact Hf|].
  by intros td t [? ?].
Qed.

Lemma create_unique (user : Z) (tickets_data : Attrs) (w : World) :
  unique_seats (db w) →
  unique_seats (db (OrderCreateSerializer_create user tickets_data w).2).
Proof.
  intros Hu.
  destruct (OrderCreateSerializer_create user tickets_data w)
    as [r w'] eqn:Hc.
  unfold OrderCreateSerializer_create in Hc.
  apply atomic_inv in Hc as [(e & w1 & _ & _ & Hdb)|(a & Hb & _)]; simpl.
  { by rewrite Hdb. }
  apply Order_create_inv in Hb.
  set (o := {| order_id := _ |}) in Hb. set (w1 := {| db := _ |}) in Hb.
  assert (unique_seats (db w1)) as Hu1 by done.
  pose proof (Ticket_bulk_create_unique (new_ticket o <$> tickets_data)
                w1 Hu1) as Hb1.
  apply bind_inv in Hb as [(e & _ & [=])|([] & w3 & Hb & [= <- <-])].
  by rewrite Hb in Hb1.
Qed.

(** ** All-or-nothing commit *)

(** C3. A booking either fails and leaves every table as it was — no
    order and no ticket is persisted, whatever the failure — or it
    succeeds and persists the order together with exactly one ticket per
    requested entry, each on the requested coordinate (the one the
    serializer fields read off the entry) and owned by that order. *)
Theorem createOrder_all_or_nothing (user : Z)
    (tickets_payload : list RawTicket) (w : World) :
  match createOrder user tickets_payload w with
  | (inl _, w') => db w' = db w
  | (inr order, w') =>
      order_user order = user ∧
      sessions (db w') = sessions (db w) ∧
      orders (db w') = orders (db w) ++ [order] ∧
      ∃ added, tickets (db w') = tickets (db w) ++ added ∧
               length added = length tickets_payload ∧
               Forall2 (ticket_for order) tickets_payload added
  end.
Proof.
  destruct (createOrder user tickets_payload w) as [[e|order] w'] eqn:Hc;
    unfold createOrder in Hc;
    apply bind_inv in Hc as [(e' & Hv & He)|(attrs & w1 & Hv & Hc)];
    simplify_eq; pose proof (read_only_is_valid tickets_payload w) as Hro;
    rewrite Hv in Hro; simpl in Hro.
  - done.
  - apply create_err in Hc as [-> _]. done.
  - apply create_ok in Hc as (Hu & Hs & Ho & added & Ht & Hf).
    apply is_valid_ok in Hv. rewrite Hro in *.
    split_and!; try done. exists added. split; [done|].
    assert (Forall2 (ticket_for order) tickets_payload added) as Hall.
    { clear -Hv Hf. revert added Hf.
      induction Hv as [|raw td ?? Hk ? IH]; intros added Hf.
      - apply Forall2_nil_inv_l in Hf as ->. constructor.
      - apply Forall2_cons_inv_l in Hf as (t & added' & [Hkt Ho] & Hf & ->).
        constructor; [| by apply IH].
        split; [by rewrite Hk, Hkt | done]. }
    split; [| done]. symmetry. by eapply Forall2_length.
Qed.

(** ** Seat uniqueness *)

Lemma unique_seats_pairwise (d : DB) :
  unique_seats d ↔
  ∀ i j t1 t2, tickets d !! i = Some t1 → tickets d !! j = Some t2 →
               seat_key t1 = seat_key t2 → i = j.
Proof.
  unfold unique_seats. rewrite NoDup_alt. split.
  - intros H i j t1 t2 H1 H2 Hk.
    apply (H i j (seat_key t1)); rewrite list_lookup_fmap.
    + by rewrite H1.
    + by rewrite H2, Hk.
  - intros H i j k. rewrite !list_lookup_fmap.
    destruct (tickets d !! i) as [t1|] eqn:H1; [|done].
    destruct (tickets d !! j) as [t2|] eqn:H2; [|done].
    simpl. intros [= <-] Hk. apply (H i j t1 t2 H1 H2). congruence.
Qed.

Lemma createOrder_unique (user : Z) (tickets_payload : list RawTicket)
    (w : World) :
  unique_seats (db w) →
  unique_seats (db (createOrder user tickets_payload w).2).
Proof.
  intros Hu. unfold createOrder, mbind, M_bind.
  pose proof (read_only_is_valid tickets_payload w) as Hro.
  destruct (is_valid tickets_payload w) as [[e|attrs] w1]; simpl in *.
  - by rewrite Hro.
  - apply create_unique. by rewrite Hro.
Qed.

(** C1. Starting from a store in which no two tickets share a
    coordinate, every state reached by any sequence of bookings has no
    two persisted tickets with the same (session, row, seat): each
    booking preserves the invariant. *)
Theorem seats_stay_unique (w0 w : World) :
  unique_seats (db w0) → reachable w0 w → unique_seats (db w).
Proof.
  intros Hu Hr. induction Hr as [|w user tickets_payload _ IH]; [done|].
  by apply createOrder_unique.
Qed.

(** Two bookings on the fresh store, the second colliding with the
    first. *)
Lemma seats_stay_unique_witness :
  unique_seats
    (db (createOrder 8 [request 1 1 1; request 2 4 4]
           (createOrder 7 [request 2 4 4; request 1 1 2] fresh).2).2).
Proof.
  apply (seats_stay_unique fresh).
  - apply NoDup_nil_2.
  - do 2 apply reach_order. apply reach_start.
Defined.

(** ** Empty batches *)

(** C7. A booking whose [tickets] list is empty fails with the
    empty-list validation error and hands back the very world it was
    given: no query was sent to the store and nothing was persisted.
    [validate] does the same when the [tickets] key is missing. *)
Theorem empty_order_rejected (user : Z) (attrs : Attrs) (w : World) :
  createOrder user [] w = (inl EmptyTickets, w) ∧
  OrderCreateSerializer_validate (Some []) attrs w = (inl EmptyTickets, w) ∧
  OrderCreateSerializer_validate None attrs w = (inl EmptyTickets, w).
Proof. split_and!; reflexivity. Qed.

(** ** The pre-check stops after the first session group *)

Example sold_2_4_4_tickets :
  tickets (db sold_2_4_4) =
    [ {| ticket_id := 1; row := 4; seat := 4; ticket_order := 1;
         movie_session_id := 2 |} ].
Proof. vm_compute. reflexivity. Qed.

Example sold_both_tickets :
  seat_key <$> tickets (db sold_both) = [ (1, 4, 4); (2, 4, 4) ].
Proof. vm_compute. reflexivity. Qed.

(** C2, at a failing input. Seat (2, 4, 4) is sold. The batch
    [(1, 4, 4); (2, 4, 4)] is non-empty, well-formed and free of
    duplicates, and its second session group asks for the sold seat.
    The validator checks session 1 only and accepts the batch; the
    booking then dies on the insert with an integrity error instead of
    the taken-seats validation error.  When both seats are sold, the
    error lists the conflict of session 1 and omits that of session 2. *)
Theorem later_group_conflict_not_reported :
  let batch := [request 1 4 4; request 2 4 4] in
  (2, 4, 4) ∈ seat_key <$> tickets (db sold_2_4_4) ∧
  (∃ attrs, (is_valid batch sold_2_4_4).1 = inr attrs) ∧
  (createOrder 8 batch sold_2_4_4).1 = inl IntegrityError ∧
  (createOrder 8 batch sold_both).1 = inl (TakenTickets [seat_ref 1 4 4]).
Proof.
  split_and!.
  - rewrite sold_2_4_4_tickets. set_solver.
  - eexists. vm_compute. reflexivity.
  - vm_compute. reflexivity.
  - vm_compute. reflexivity.
Qed.

(** C9, at a failing input. User 7 holds seat (2, 4, 4). User 8 asks for
    (1, 1, 1) together with (2, 4, 4): the request is not answered with
    the taken-seats error but with an integrity error from the insert.
    The ticket of user 7 stays as it was. *)
Theorem taken_seat_in_later_group :
  let batch := [request 1 1 1; request 2 4 4] in
  (createOrder 8 batch sold_2_4_4).1 = inl IntegrityError ∧
  tickets (db (createOrder 8 batch sold_2_4_4).2) = tickets (db sold_2_4_4).
Proof. split; vm_compute; reflexivity. Qed.

(** The same seat asked for on its own, or first in the batch, is
    answered with the taken-seats error. *)
Example taken_seat_in_first_group :
  (createOrder 8 [request 2 4 4] sold_2_4_4).1 =
    inl (TakenTickets [seat_ref 2 4 4]) ∧
  (createOrder 8 [request 2 4 4; request 1 1 1] sold_2_4_4).1 =
    inl (TakenTickets [seat_ref 2 4 4]).
Proof. split; vm_compute; reflexivity. Qed.

(** ** Duplicates inside a batch *)

(** C8 fails as stated: row 11 does not exist in the blue hall, and a
    batch asking twice for (1, 11, 1) is turned down with the per-entry
    field errors, not with the duplicates error. *)
Lemma duplicate_out_of_bounds :
  let batch := [request 1 11 1; request 1 11 1] in
  occurrences (1, 11, 1) batch = 2%nat ∧
  (createOrder 7 batch fresh).1 =
    inl (TicketErrors
           [ Some (OutOfBounds
               {[ "row" := "Row must be within [1..10] for this cinema hall." ]});
             Some (OutOfBounds
               {[ "row" := "Row must be within [1..10] for this cinema hall." ]}) ]) ∧
  ¬ ∃ duplicates,
      (createOrder 7 batch fresh).1 = inl (DuplicateTickets duplicates).
Proof.
  assert ((createOrder 7 [request 1 11 1; request 1 11 1] fresh).1 =
    inl (TicketErrors
           [ Some (OutOfBounds
               {[ "row" := "Row must be within [1..10] for this cinema hall." ]});
             Some (OutOfBounds
               {[ "row" := "Row must be within [1..10] for this cinema hall." ]}) ]))
    as Hrun by (vm_compute; reflexivity).
  split_and!; [by vm_compute | exact Hrun |].
  intros [duplicates Hd]. rewrite Hrun in Hd. discriminate.
Qed.

(** *** Dictionaries *)

Lemma dict_get_set_eq {V} (k : Z) (v : V) (d : list (Z * V)) :
  dict_get k (dict_set k v d) = Some v.
Proof.
  induction d as [|[k' v'] d IH]; simpl.
  - by rewrite bool_decide_eq_true_2.
  - case_bool_decide; simpl.
    + by rewrite bool_decide_eq_true_2.
    + by rewrite bool_decide_eq_false_2.
Qed.

Lemma dict_get_set_ne {V} (k k0 : Z) (v : V) (d : list (Z * V)) :
  k ≠ k0 → dict_get k0 (dict_set k v d) = dict_get k0 d.
Proof.
  intros Hne. induction d as [|[k' v'] d IH]; simpl.
  - by rewrite bool_decide_eq_false_2.
  - case_bool_decide; simpl; subst.
    + by rewrite !bool_decide_eq_false_2.
    + by rewrite IH.
Qed.

Lemma holds_empty : holds [] ∅.
Proof. intros ms_id r s. simpl. set_solver. Qed.

(** Adding [(row, seat)] to the set of [ms_id], as the loop body does. *)
Lemma holds_add (by_session : BySession) (seen : gset (Z * Z * Z))
    (ms_id row seat : Z) :
  holds by_session seen →
  let '(by_session', requested) := dict_setdefault ms_id ∅ by_session in
  ((row, seat) ∈ requested ↔ (ms_id, row, seat) ∈ seen) ∧
  holds by_session' seen ∧
  holds (dict_set ms_id (requested ∪ {[ (row, seat) ]}) by_session')
        (seen ∪ {[ (ms_id, row, seat) ]}).
Proof.
  unfold holds. intros Hh. unfold dict_setdefault.
  pose proof (Hh ms_id) as Hms.
  destruct (dict_get ms_id by_session) as [requested|] eqn:Hget;
    simpl in Hms.
  - split_and!; [by rewrite Hms | done |].
    intros m r s. rewrite elem_of_union, elem_of_singleton.
    destruct (decide (m = ms_id)) as [->|Hne].
    + rewrite dict_get_set_eq. simpl. rewrite Hms. set_solver.
    + rewrite dict_get_set_ne, Hh by done. naive_solver.
  - assert (∀ m r s, (m, r, s) ∈ seen ↔
              (r, s) ∈ default ∅ (dict_get m (dict_set ms_id ∅ by_session)))
      as Hh'.
    { intros m r s. destruct (decide (m = ms_id)) as [->|Hne].
      - by rewrite dict_get_set_eq.
      - by rewrite dict_get_set_ne by done. }
    split_and!; [by rewrite Hms | done |].
    intros m r s. rewrite elem_of_union, elem_of_singleton.
    destruct (decide (m = ms_id)) as [->|Hne].
    + rewrite dict_get_set_eq. simpl. rewrite Hms. set_solver.
    + rewrite !dict_get_set_ne, Hh by done. rewrite Hget || idtac.
      naive_solver.
Qed.

(** *** The grouping loop *)

Lemma holds_eq (by_session : BySession) (seen seen' : gset (Z * Z * Z)) :
  holds by_session seen → seen = seen' → holds by_session seen'.
Proof. by intros ? <-. Qed.

Lemma group_tickets_spec (tickets_payload : list RawTicket)
    (by_session : BySession) (duplicates : list SeatRef)
    (seen : gset (Z * Z * Z)) :
  holds by_session seen →
  Forall (λ t, is_Some (raw_key t)) tickets_payload →
  ∃ by_session' new,
    group_tickets tickets_payload by_session duplicates =
      inr (by_session', duplicates ++ new) ∧
    ref_key <$> new = repeats seen (omap raw_key tickets_payload) ∧
    holds by_session'
          (seen ∪ list_to_set (omap raw_key tickets_payload)).
Proof.
  revert by_session duplicates seen.
  induction tickets_payload as [|t rest IH];
    intros by_session duplicates seen Hh Hwf; simpl.
  - exists by_session, []. rewrite app_nil_r. split_and!; [done..|].
    by rewrite union_empty_r_L.
  - apply Forall_cons in Hwf as [[k Hk] Hwf].
    unfold raw_key in Hk |- *.
    destruct (raw_movie_session t) as [ms_id|]; [|done].
    destruct (raw_row t) as [row|]; [|done].
    destruct (raw_seat t) as [seat|]; [|done].
    injection Hk as <-. simpl.
    pose proof (holds_add by_session seen ms_id row seat Hh) as Hadd.
    destruct (dict_setdefault ms_id ∅ by_session) as [by_session1 requested].
    destruct Hadd as (Hin & Hh1 & Hh2).
    destruct (decide ((ms_id, row, seat) ∈ seen)) as [Hseen|Hseen].
    + rewrite !bool_decide_eq_true_2 by tauto.
      destruct (IH by_session1
                  (duplicates ++ [ {| ref_movie_session := ms_id;
                                      ref_row := row; ref_seat := seat |} ])
                  seen Hh1 Hwf) as (bs' & new & Hg & Hn & Hh').
      exists bs', ({| ref_movie_session := ms_id;
                      ref_row := row; ref_seat := seat |} :: new).
      split_and!.
      * by rewrite Hg, <- app_assoc.
      * rewrite fmap_cons, Hn. done.
      * eapply holds_eq; [exact Hh'|]. set_solver.
    + rewrite !bool_decide_eq_false_2 by tauto.
      destruct (IH _ duplicates _ Hh2 Hwf) as (bs' & new & Hg & Hn & Hh').
      exists bs', new. split_and!; [done..|].
      eapply holds_eq; [exact Hh'|]. set_solver.
Qed.

Lemma occurrences_cons (k : Z * Z * Z) (t : RawTicket)
    (rest : list RawTicket) :
  occurrences k (t :: rest) =
    ((if bool_decide (raw_key t = Some k) then 1 else 0)
     + occurrences k rest)%nat.
Proof.
  unfold occurrences. rewrite filter_cons.
  case_decide; [by rewrite bool_decide_eq_true_2
               | by rewrite bool_decide_eq_false_2].
Qed.

Lemma omap_raw_key_cons (t : RawTicket) (rest : list RawTicket) :
  omap raw_key (t :: rest) =
    match raw_key t with
    | Some k => k :: omap raw_key rest
    | None => omap raw_key rest
    end.
Proof. reflexivity. Qed.

Lemma occurrences_pos (k : Z * Z * Z) (tickets_payload : list RawTicket) :
  (1 ≤ occurrences k tickets_payload)%nat ↔
  k ∈ omap raw_key tickets_payload.
Proof.
  induction tickets_payload as [|t rest IH].
  - unfold occurrences. simpl. split; [lia | set_solver].
  - rewrite occurrences_cons, omap_raw_key_cons.
    destruct (raw_key t) as [k'|] eqn:Hk; case_bool_decide as Heq;
      simplify_eq.
    + split; [intros _; set_solver | lia].
    + rewrite elem_of_cons, <- IH. split; [by right|].
      intros [->|?]; [done | lia].
    + by rewrite <- IH.
Qed.

(** A coordinate is among the repeats exactly when it had been met
    before and comes up again, or comes up at least twice. *)
Lemma elem_of_repeats (k : Z * Z * Z) (seen : gset (Z * Z * Z))
    (tickets_payload : list RawTicket) :
  k ∈ repeats seen (omap raw_key tickets_payload) ↔
  (k ∈ seen ∧ 1 ≤ occurrences k tickets_payload)%nat ∨
  (2 ≤ occurrences k tickets_payload)%nat.
Proof.
  revert seen. induction tickets_payload as [|t rest IH]; intros seen.
  - unfold occurrences. simpl. split; [set_solver | lia].
  - rewrite occurrences_cons, omap_raw_key_cons.
    pose proof (occurrences_pos k rest) as Hpos.
    destruct (raw_key t) as [k'|] eqn:Hk; case_bool_decide as Heq;
      simplify_eq; [| |by apply IH].
    + simpl. case_bool_decide as Hs.
      * rewrite elem_of_cons. split; [intros _; left; split; [done|lia]|].
        intros _. by left.
      * rewrite IH.
        split; [intros [[_ ?]|?]; right; lia|].
        intros [[? _]|?]; [done|]. left. split; [set_solver | lia].
    + simpl. assert (k ≠ k') by congruence. case_bool_decide as Hs.
      * rewrite elem_of_cons, IH. simpl. naive_solver.
      * rewrite IH. simpl. set_solver.
Qed.

Lemma validate_duplicates (tickets_payload : list RawTicket) (attrs : Attrs)
    (w : World) (k : Z * Z * Z) :
  Forall (λ t, is_Some (raw_key t)) tickets_payload →
  (2 ≤ occurrences k tickets_payload)%nat →
  ∃ duplicates,
    OrderCreateSerializer_validate (Some tickets_payload) attrs w =
      (inl (DuplicateTickets duplicates), w) ∧
    ∀ k', k' ∈ ref_key <$> duplicates ↔
          (2 ≤ occurrences k' tickets_payload)%nat.
Proof.
  intros Hwf Hk. unfold OrderCreateSerializer_validate. simpl.
  rewrite bool_decide_eq_false_2.
  2:{ intros ->. unfold occurrences in Hk. simpl in Hk. lia. }
  destruct (group_tickets_spec tickets_payload [] [] ∅ holds_empty Hwf)
    as (by_session & new & -> & Hnew & _).
  simpl. assert (∀ k', k' ∈ ref_key <$> new ↔
                       (2 ≤ occurrences k' tickets_payload)%nat) as Hall.
  { intros k'. rewrite Hnew, elem_of_repeats. set_solver. }
  exists new. split; [|done].
  rewrite bool_decide_eq_true_2; [done|].
  intros ->. apply Hall in Hk. set_solver.
Qed.

(** C8, amended. When every entry of a batch passes the per-entry checks
    of the nested serializer (fields it reads as integers, known
    session, seat inside the hall), [int(..)] reads the three fields of
    every entry, and some coordinate, as [int(..)] reads it, is asked
    for more than once, the booking is rejected with the duplicates
    error; the error lists exactly the coordinates asked for more than
    once, and no table changes.  That [int(..)] reads every entry does
    not follow from the per-entry checks and is asked for on its own:
    see [duplicate_dotted_row]. *)
Theorem duplicate_batch_rejected (user : Z)
    (tickets_payload : list RawTicket) (w w1 : World) (attrs : Attrs)
    (k : Z * Z * Z) :
  Tickets_run_validation tickets_payload w = (inr attrs, w1) →
  Forall (λ t, is_Some (raw_key t)) tickets_payload →
  (2 ≤ occurrences k tickets_payload)%nat →
  ∃ duplicates,
    createOrder user tickets_payload w =
      (inl (DuplicateTickets duplicates), w1) ∧
    db w1 = db w ∧
    ∀ k', k' ∈ ref_key <$> duplicates ↔
          (2 ≤ occurrences k' tickets_payload)%nat.
Proof.
  intros Hv Hwf Hk.
  destruct (validate_duplicates tickets_payload attrs w1 k Hwf Hk)
    as (duplicates & Hd & Hall).
  exists duplicates. split_and!; [| |done].
  - unfold createOrder, is_valid.
    apply bind_err. erewrite bind_ok by exact Hv. by apply bind_err.
  - pose proof (read_only_Tickets_run_validation tickets_payload w) as Hro.
    by rewrite Hv in Hro.
Qed.

(** Session 5, row 2, seat 3 asked for twice. *)
Lemma duplicate_batch_rejected_witness :
  ∃ duplicates,
    createOrder 7 [request 5 2 3; request 5 2 3; request 5 1 1] fresh =
      (inl (DuplicateTickets duplicates),
       (Tickets_run_validation
          [request 5 2 3; request 5 2 3; request 5 1 1] fresh).2) ∧
    db (Tickets_run_validation
          [request 5 2 3; request 5 2 3; request 5 1 1] fresh).2 = db fresh ∧
    ∀ k', k' ∈ ref_key <$> duplicates ↔
          (2 ≤ occurrences k'
                 [request 5 2 3; request 5 2 3; request 5 1 1])%nat.
Proof.
  eapply (duplicate_batch_rejected 7 _ fresh _ _ (5, 2, 3)).
  - vm_compute. reflexivity.
  - repeat (apply Forall_cons_2; [by eexists|]). apply Forall_nil_2.
  - vm_compute. lia.
Defined.

(** A row written ["2.0"] passes the per-entry checks, where the integer
    field reads 2, and stops [validate], where [int("2.0")] raises: a
    batch that asks twice for session 5, row 2, seat 3 in this writing
    is turned down with the malformed-entry error, not with the
    duplicates error. *)
Example duplicate_dotted_row :
  let batch := [request_dotted_row 5 2 3; request_dotted_row 5 2 3] in
  omap field_key batch = [(5, 2, 3); (5, 2, 3)] ∧
  (∃ attrs w1, Tickets_run_validation batch fresh = (inr attrs, w1)) ∧
  (createOrder 7 batch fresh).1 = inl MalformedTickets ∧
  db (createOrder 7 batch fresh).2 = db fresh.
Proof.
  split_and!; [by vm_compute | | by vm_compute | by vm_compute].
  eexists _, _. vm_compute. reflexivity.
Qed.

Example same_seat_twice :
  (createOrder 7 [request 5 2 3; request 5 2 3] fresh).1 =
    inl (DuplicateTickets [seat_ref 5 2 3]) ∧
  tickets (db (createOrder 7 [request 5 2 3; request 5 2 3] fresh).2) = [].
Proof. split; vm_compute; reflexivity. Qed.

(** ** The pre-check of one session group *)

Lemma Ticket_filter_values_eq (ms_id : Z) (row__in : list Z) (w : World) :
  ∃ existing,
    Ticket_filter_values ms_id row__in w =
      (inr existing,
       {| db := db w; log := log w ++ [QTicketFilter ms_id row__in] |}) ∧
    ∀ r s, (r, s) ∈ existing ↔
           r ∈ row__in ∧ (ms_id, r, s) ∈ seat_key <$> tickets (db w).
Proof.
  eexists. split; [reflexivity|].
  intros r s. rewrite elem_of_list_to_set, !list_elem_of_fmap.
  setoid_rewrite list_elem_of_filter. unfold seat_key. split.
  - intros (t & [= -> ->] & [<- Hr] & Ht). split; [done|]. by exists t.
  - intros (Hr & t & [= -> -> ->] & Ht). by exists t.
Qed.

Section OneSeat.
Context (ms_id r s : Z) (hall : CinemaHall).

Let ticket : RawTicket :=
  {| raw_movie_session := Some ms_id; raw_row := Some r;
     raw_seat := Some s;
     field_movie_session := Some ms_id; field_row := Some r;
     field_seat := Some s |}.
Let ticket_data : TicketData :=
  {| data_movie_session := {| session_id := ms_id; cinema_hall := hall |};
     data_row := r; data_seat := s |}.





End OneSeat.

(** ** Two bookings for the same seat *)

Section Race.
Context (ms_id r s : Z) (hall : CinemaHall).
Hypothesis row_ok : 1 ≤ r ≤ rows hall.
Hypothesis seat_ok : 1 ≤ s ≤ seats_in_row hall.






End Race.


(** Run back to back, the two phases are the booking operation. *)
Lemma run_in_turn (user : Z) (tickets_payload : list RawTicket)
    (other : Call) (w : World) :
  run [First; First]
      {| first := Pending user tickets_payload; second := other;
         world := w |} =
    {| first := Finished (createOrder user tickets_payload w).1;
       second := other;
       world := (createOrder user tickets_payload w).2 |}.
Proof.
  unfold createOrder, mbind, M_bind. simpl. unfold step. simpl.
  destruct (is_valid tickets_payload w) as [[e|attrs] w1]; simpl; [done|].
  by destruct (OrderCreateSerializer_create user attrs w1).
Qed.


(** Served one after the other, the second call is answered with the
    taken-seats error. *)
Example serial_loser_taken :
  let c := run [First; First; Second; Second]
             {| first := Pending 7 (one_seat 1 4 4);
                second := Pending 8 (one_seat 1 4 4);
                world := fresh |} in
  first c = Finished (inr {| order_id := 1; order_user := 7 |}) ∧
  second c = Finished (inl (TakenTickets [seat_ref 1 4 4])).
Proof. split; vm_compute; reflexivity. Qed.

(** ** What the pre-check does report

    The first session group is the one of the batch's first entry. *)

Lemma dict_set_head {V} (k : Z) (v : V) (d : list (Z * V)) :
  head (dict_set k v d).*1 = Some (default k (head d.*1)).
Proof.
  destruct d as [|[k' v'] d]; simpl; [done|].
  case_bool_decide; simpl; congruence.
Qed.

Lemma group_tickets_head (tickets_payload : list RawTicket)
    (by_session by_session' : BySession) (duplicates duplicates' : list SeatRef)
    (k0 : Z) :
  head by_session.*1 = Some k0 →
  group_tickets tickets_payload by_session duplicates =
    inr (by_session', duplicates') →
  head by_session'.*1 = Some k0.
Proof.
  revert by_session duplicates.
  induction tickets_payload as [|t rest IH]; intros by_session duplicates Hh;
    simpl.
  - by intros [= <- _].
  - destruct (raw_movie_session t) as [ms_id|]; [|done].
    destruct (raw_row t) as [row|]; [|done].
    destruct (raw_seat t) as [seat|]; [|done].
    assert (head (dict_setdefault ms_id (∅ : gset (Z * Z)) by_session).1.*1
            = Some k0) as Hh1.
    { unfold dict_setdefault. destruct (dict_get ms_id by_session); simpl;
        [done|]. by rewrite dict_set_head, Hh. }
    destruct (dict_setdefault ms_id ∅ by_session) as [by_session1 requested].
    simpl in Hh1. case_bool_decide.
    + by apply IH.
    + apply IH. by rewrite dict_set_head, Hh1.
Qed.

Lemma group_tickets_first (t0 : RawTicket) (rest : list RawTicket)
    (by_session : BySession) (duplicates : list SeatRef) (ms_id : Z) :
  raw_movie_session t0 = Some ms_id →
  group_tickets (t0 :: rest) [] [] = inr (by_session, duplicates) →
  ∃ requested tail, by_session = (ms_id, requested) :: tail.
Proof.
  intros Hms. simpl. rewrite Hms.
  destruct (raw_row t0) as [row|]; [|done].
  destruct (raw_seat t0) as [seat|]; [|done].
  unfold dict_setdefault. simpl.
  rewrite bool_decide_eq_false_2 by set_solver. simpl.
  rewrite bool_decide_eq_true_2 by done.
  intros Hg. apply group_tickets_head with (k0 := ms_id) in Hg; [|done].
  destruct by_session as [|[k requested] tail]; simplify_eq/=.
  by eexists _, _.
Qed.

Lemma check_group_spec (attrs : Attrs) (ms_id : Z) (requested : gset (Z * Z))
    (w : World) :
  ∃ conflicts w',
    db w' = db w ∧
    (∀ m r s, (m, r, s) ∈ ref_key <$> conflicts ↔
              m = ms_id ∧ (r, s) ∈ requested ∧ taken (db w) (ms_id, r, s)) ∧
    check_group attrs (ms_id, requested) [] w =
      (if bool_decide (conflicts ≠ []) then inl (TakenTickets conflicts)
       else inr (Return attrs), w').
Proof.
  unfold check_group.
  destruct (Ticket_filter_values_eq ms_id (elements requested).*1 w)
    as (existing & He & Hex).
  exists (group_conflicts ms_id requested existing). eexists.
  split; [| split; [| erewrite bind_ok by exact He; simpl;
                       by case_bool_decide ] ].
  - done.
  - intros m r s. unfold group_conflicts, taken.
    rewrite <- list_fmap_compose, list_elem_of_fmap.
    setoid_rewrite list_elem_of_filter. setoid_rewrite elem_of_elements.
    split.
    + intros ([r' s'] & [= -> -> ->] & Hin & Hreq).
      apply Hex in Hin as [_ Hin]. done.
    + intros (-> & Hreq & Hin). exists (r, s). split; [done|].
      split; [|done]. apply Hex. split; [|done].
      apply list_elem_of_fmap. exists (r, s). split; [done|].
      by apply elem_of_elements.
Qed.

Lemma repeats_NoDup (seen : gset (Z * Z * Z)) (ks : list (Z * Z * Z)) :
  NoDup ks → (∀ k, k ∈ ks → k ∉ seen) → repeats seen ks = [].
Proof.
  intros Hnd. revert seen.
  induction Hnd as [|k ks Hk Hnd IH]; intros seen Hfresh; simpl; [done|].
  rewrite bool_decide_eq_false_2 by (apply Hfresh; set_solver).
  apply IH. intros k' Hk'. set_solver.
Qed.

(** X5. A batch that passes the per-entry checks of the nested
    serializer, of which [int(..)] reads every field and which, in that
    reading, repeats no coordinate, with a sold seat among those it asks
    for in the session of its first entry: the booking is rejected with
    the taken-seats error, which lists exactly the sold seats that
    [validate] reads in that session, and no table changes.  That
    [int(..)] reads every entry is a hypothesis of its own: the
    per-entry checks read the fields with the serializer's parsers and
    do not give it. *)
Theorem first_group_conflicts_reported (user : Z) (t0 : RawTicket)
    (rest : list RawTicket) (w w1 : World) (attrs : Attrs)
    (ms_id r0 s0 : Z) :
  Tickets_run_validation (t0 :: rest) w = (inr attrs, w1) →
  Forall (λ t, is_Some (raw_key t)) (t0 :: rest) →
  NoDup (omap raw_key (t0 :: rest)) →
  raw_movie_session t0 = Some ms_id →
  (1 ≤ occurrences (ms_id, r0, s0) (t0 :: rest))%nat →
  taken (db w) (ms_id, r0, s0) →
  ∃ conflicts w',
    createOrder user (t0 :: rest) w = (inl (TakenTickets conflicts), w') ∧
    db w' = db w ∧
    ∀ m r s, (m, r, s) ∈ ref_key <$> conflicts ↔
             m = ms_id ∧ (1 ≤ occurrences (ms_id, r, s) (t0 :: rest))%nat ∧
             taken (db w) (ms_id, r, s).
Proof.
  intros Hv Hwf Hnodup Hms Hocc Htaken.
  assert (db w1 = db w) as Hdb.
  { pose proof (read_only_Tickets_run_validation (t0 :: rest) w) as Hro.
    by rewrite Hv in Hro. }
  destruct (group_tickets_spec (t0 :: rest) [] [] ∅ holds_empty Hwf)
    as (by_session & new & Hg & Hnew & Hholds).
  assert (new = []) as ->.
  { apply fmap_nil_inv with (f := ref_key). rewrite Hnew.
    apply repeats_NoDup; [done | set_solver]. }
  destruct (group_tickets_first _ _ _ _ _ Hms Hg)
    as (requested & tail & ->).
  assert (∀ r s, (r, s) ∈ requested ↔
                 (1 ≤ occurrences (ms_id, r, s) (t0 :: rest))%nat) as Hreq.
  { intros r s. rewrite occurrences_pos.
    specialize (Hholds ms_id r s). simpl in Hholds.
    rewrite bool_decide_eq_true_2 in Hholds by done. simpl in Hholds.
    rewrite <- Hholds. set_solver. }
  destruct (check_group_spec attrs ms_id requested w1)
    as (conflicts & w' & Hdb' & Hconf & Hcheck).
  rewrite Hdb in Hconf.
  assert (conflicts ≠ []) as Hne.
  { intros ->. specialize (Hconf ms_id r0 s0).
    assert ((ms_id, r0, s0) ∈ ref_key <$> []) as Hin
      by (apply Hconf; split_and!; [done| by apply Hreq | done]).
    set_solver. }
  rewrite bool_decide_eq_true_2 in Hcheck by done.
  exists conflicts, w'. split_and!.
  - unfold createOrder, is_valid.
    apply bind_err. erewrite bind_ok by exact Hv. apply bind_err.
    unfold OrderCreateSerializer_validate.
    change (default [] (Some (t0 :: rest))) with (t0 :: rest).
    rewrite bool_decide_eq_false_2 by done. rewrite Hg.
    rewrite bool_decide_eq_false_2 by (intros Hnn; by apply Hnn).
    apply bind_err. simpl. by apply bind_err.
  - congruence.
  - intros m r s. rewrite Hconf, Hreq. done.
Qed.

(** User 8 asks for two seats of session 2, one of them held by
    user 7. *)
Lemma first_group_conflicts_reported_witness :
  ∃ conflicts w',
    createOrder 8 [request 2 4 4; request 2 4 5] sold_2_4_4 =
      (inl (TakenTickets conflicts), w') ∧
    db w' = db sold_2_4_4 ∧
    ∀ m r s, (m, r, s) ∈ ref_key <$> conflicts ↔
             m = 2 ∧
             (1 ≤ occurrences (2%Z, r, s)
                    [request 2 4 4; request 2 4 5])%nat ∧
             taken (db sold_2_4_4) (2, r, s).
Proof.
  eapply (first_group_conflicts_reported 8 _ _ sold_2_4_4 _ _ 2 4 4).
  - vm_compute. reflexivity.
  - repeat (apply Forall_cons_2; [by eexists|]). apply Forall_nil_2.
  - apply (bool_decide_unpack _). by vm_compute.
  - reflexivity.
  - vm_compute. lia.
  - unfold taken. rewrite sold_2_4_4_tickets. set_solver.
Defined.

(** * Further properties of the serializers *)

(** ** How a booking ends *)

Lemma createOrder_inv (user : Z) (tickets_payload : list RawTicket)
    (w : World) :
  (∃ e w', createOrder user tickets_payload w = (inl e, w') ∧
           db w' = db w) ∨
  (∃ order attrs w1 w',
     createOrder user tickets_payload w = (inr order, w') ∧
     is_valid tickets_payload w = (inr attrs, w1) ∧ db w1 = db w ∧
     OrderCreateSerializer_create user attrs w1 = (inr order, w')).
Proof.
  pose proof (read_only_is_valid tickets_payload w) as Hro.
  unfold createOrder.
  destruct (is_valid tickets_payload w) as [[e|attrs] w1] eqn:Hv;
    simpl in Hro.
  - left. exists e, w1. split; [by apply bind_err | done].
  - erewrite bind_ok by exact Hv.
    destruct (OrderCreateSerializer_create user attrs w1)
      as [[e|order] w'] eqn:Hc.
    + left. exists e, w'. split; [done|].
      apply create_err in Hc as [-> _]. done.
    + right. by exists order, attrs, w1, w'.
Qed.

Lemma is_valid_inv (tickets_payload : list RawTicket) (attrs : Attrs)
    (w w1 : World) :
  is_valid tickets_payload w = (inr attrs, w1) →
  ∃ w0, Tickets_run_validation tickets_payload w = (inr attrs, w0) ∧
        OrderCreateSerializer_validate (Some tickets_payload) attrs w0 =
          (inr (Some attrs), w1).
Proof.
  unfold is_valid. intros Hv.
  apply bind_inv in Hv as [(e & _ & [=])|(a0 & w0 & Ha0 & Hv)].
  apply bind_inv in Hv as [(e & _ & [=])|(r & w2 & Hr & Hv)].
  destruct r as [a|]; [| by simplify_eq/=].
  injection Hv as <- <-.
  pose proof (validate_returns_attrs _ _ _ _ _ Hr) as ->.
  by exists w0.
Qed.

(** ** Malformed entries *)

Lemma group_tickets_malformed (tickets_payload : list RawTicket)
    (by_session : BySession) (duplicates : list SeatRef) :
  Exists (λ t, raw_key t = None) tickets_payload →
  group_tickets tickets_payload by_session duplicates = inl MalformedTickets.
Proof.
  intros Hex. revert by_session duplicates.
  induction tickets_payload as [|t rest IH]; intros by_session duplicates;
    [by apply Exists_nil in Hex|].
  simpl. apply Exists_cons in Hex as [Hbad|Hex]; unfold raw_key in *.
  - destruct (raw_movie_session t) as [ms_id|]; [|done].
    destruct (raw_row t) as [row|]; [|done].
    destruct (raw_seat t) as [seat|]; done.
  - destruct (raw_movie_session t) as [ms_id|]; [|done].
    destruct (raw_row t) as [row|]; [|done].
    destruct (raw_seat t) as [seat|]; [|done].
    destruct (dict_setdefault ms_id ∅ by_session) as [by_session1 seen].
    case_bool_decide; by apply IH.
Qed.

(** X1. As soon as one entry of the payload lacks an integer
    [movie_session], [row] or [seat], [validate] raises the
    malformed-entry error, whatever else the payload holds (duplicates
    included), and it does so without a single statement to the store. *)
Theorem validate_malformed (tickets_payload : list RawTicket)
    (attrs : Attrs) (w : World) :
  Exists (λ t, raw_key t = None) tickets_payload →
  OrderCreateSerializer_validate (Some tickets_payload) attrs w =
    (inl MalformedTickets, w).
Proof.
  intros Hex. unfold OrderCreateSerializer_validate.
  change (default [] (Some tickets_payload)) with tickets_payload.
  rewrite bool_decide_eq_false_2.
  2:{ intros ->. by apply Exists_nil in Hex. }
  by rewrite group_tickets_malformed.
Qed.

(** Two requests for the same seat followed by an entry without a row. *)
Lemma validate_malformed_witness :
  OrderCreateSerializer_validate
    (Some [request 1 1 1; request 1 1 1;
           {| raw_movie_session := Some 1; raw_row := None;
              raw_seat := Some 2;
              field_movie_session := Some 1; field_row := None;
              field_seat := Some 2 |}]) [] fresh =
    (inl MalformedTickets, fresh).
Proof.
  apply validate_malformed.
  apply Exists_cons_tl, Exists_cons_tl, Exists_cons_hd. reflexivity.
Defined.

(** ** Validation only reads *)

Lemma only_reads_ret {A} (a : A) : only_reads (mret a).
Proof. intros w. split; [done|]. exists []. by rewrite app_nil_r. Qed.

Lemma only_reads_raise {A} (e : Error) : only_reads (@raise A e).
Proof. intros w. split; [done|]. exists []. by rewrite app_nil_r. Qed.

Lemma only_reads_get_db : only_reads get_db.
Proof. intros w. split; [done|]. exists []. by rewrite app_nil_r. Qed.

Lemma only_reads_query (q : Query) : is_read q = true → only_reads (query q).
Proof. intros Hq w. split; [done|]. exists [q]. split; [done|]. by constructor. Qed.

Lemma only_reads_bind {A B} (m : M A) (f : A → M B) :
  only_reads m → (∀ a, only_reads (f a)) → only_reads (m ≫= f).
Proof.
  intros Hm Hf w. unfold mbind, M_bind.
  destruct (Hm w) as (Hdb & new & Hlog & Hnew).
  destruct (m w) as [[e|a] w1]; simpl in *; [by eauto|].
  destruct (Hf a w1) as (Hdb' & new' & Hlog' & Hnew').
  split; [congruence|]. exists (new ++ new').
  split; [by rewrite Hlog', Hlog, app_assoc | by apply Forall_app].
Qed.

Create HintDb reads.

#[local] Hint Resolve only_reads_ret only_reads_raise only_reads_get_db
  : reads.

Ltac only_reads_tac :=
  repeat first
    [ apply only_reads_bind; [| intros ?]
    | apply only_reads_query; reflexivity
    | progress eauto with reads
    | case_match ].

Lemma only_reads_Ticket_run_validation (t : RawTicket) :
  only_reads (Ticket_run_validation t).
Proof. unfold Ticket_run_validation, MovieSession_get. only_reads_tac. Qed.

Lemma only_reads_Tickets_run_validation (data : list RawTicket) :
  only_reads (Tickets_run_validation data).
Proof.
  unfold Tickets_run_validation.
  apply only_reads_bind; [| intros ?; only_reads_tac].
  induction data as [|t data IH]; simpl; [only_reads_tac|].
  apply only_reads_bind; [apply only_reads_Ticket_run_validation|].
  intros ?. apply only_reads_bind; [done|]. intros ?. only_reads_tac.
Qed.

Lemma only_reads_for_each {A S R} (xs : list A) (s : S)
    (body : A → S → M (Flow S R)) :
  (∀ x s, only_reads (body x s)) → only_reads (for_each xs s body).
Proof.
  intros Hb. revert s. induction xs as [|x xs IH]; intros s; simpl;
    only_reads_tac.
Qed.

Lemma only_reads_validate (initial_data : option (list RawTicket))
    (attrs : Attrs) :
  only_reads (OrderCreateSerializer_validate initial_data attrs).
Proof.
  unfold OrderCreateSerializer_validate.
  repeat case_match; eauto with reads.
  apply only_reads_bind; [| intros ?; eauto with reads].
  apply only_reads_for_each. intros [ms_id requested] conflicts.
  unfold check_group, Ticket_filter_values. only_reads_tac.
Qed.

(** X2. The whole validation phase of a booking (the per-entry checks and
    [validate]) changes no table, and every statement it sends is a
    lookup of a session or of tickets. *)
Theorem validation_only_reads (tickets_payload : list RawTicket)
    (w : World) :
  db (is_valid tickets_payload w).2 = db w ∧
  ∃ new, log (is_valid tickets_payload w).2 = log w ++ new ∧
         Forall (λ q, is_read q = true) new.
Proof.
  revert w. change (only_reads (is_valid tickets_payload)).
  unfold is_valid.
  apply only_reads_bind; [apply only_reads_Tickets_run_validation|].
  intros attrs. apply only_reads_bind; [apply only_reads_validate|].
  intros ?. only_reads_tac.
Qed.

(** ** What [validate] can answer, and what it asks the store *)

Lemma repeats_nil (seen : gset (Z * Z * Z)) (ks : list (Z * Z * Z)) :
  repeats seen ks = [] → NoDup ks ∧ ∀ k, k ∈ ks → k ∉ seen.
Proof.
  revert seen. induction ks as [|k ks IH]; intros seen; simpl.
  - intros _. split; [constructor | set_solver].
  - case_bool_decide as Hk; [done|]. intros [Hnd Hfresh]%IH.
    split.
    + constructor; [|done]. intros Hin. apply Hfresh in Hin. set_solver.
    + intros k' [->|Hin]%elem_of_cons; [done|].
      apply Hfresh in Hin. set_solver.
Qed.

Lemma validate_well_formed (tickets_payload : list RawTicket)
    (attrs : Attrs) (w : World) :
  Forall (λ t, is_Some (raw_key t)) tickets_payload →
  match OrderCreateSerializer_validate (Some tickets_payload) attrs w with
  | (inl EmptyTickets, w') => tickets_payload = [] ∧ w' = w
  | (inl (DuplicateTickets duplicates), w') =>
      duplicates ≠ [] ∧ ¬ NoDup (omap raw_key tickets_payload) ∧ w' = w
  | (inl (TakenTickets conflicts), w') =>
      conflicts ≠ [] ∧
      (∀ k, k ∈ ref_key <$> conflicts →
            k ∈ omap raw_key tickets_payload ∧ taken (db w) k) ∧
      ∃ ms_id row__in, w' = {| db := db w;
                              log := log w ++ [QTicketFilter ms_id row__in] |}
  | (inr (Some attrs'), w') =>
      attrs' = attrs ∧ NoDup (omap raw_key tickets_payload) ∧
      ∃ ms_id row__in, w' = {| db := db w;
                              log := log w ++ [QTicketFilter ms_id row__in] |}
  | _ => False
  end.
Proof.
  intros Hwf. unfold OrderCreateSerializer_validate.
  change (default [] (Some tickets_payload)) with tickets_payload.
  case_bool_decide as Hnil; [done|].
  destruct (group_tickets_spec tickets_payload [] [] ∅ holds_empty Hwf)
    as (by_session & new & Hg & Hnew & Hholds).
  rewrite Hg. simpl. case_bool_decide as Hdup.
  { split_and!; [done| |done]. intros Hnd.
    assert (repeats ∅ (omap raw_key tickets_payload) = []) as Hrep
      by (apply repeats_NoDup; [exact Hnd | set_solver]).
    rewrite Hrep in Hnew. apply fmap_nil_inv in Hnew. subst new.
    by apply Hdup. }
  assert (new = []) as -> by (by destruct new).
  symmetry in Hnew. apply repeats_nil in Hnew as [Hnd _].
  destruct tickets_payload as [|t0 rest]; [done|].
  assert (is_Some (raw_movie_session t0)) as [ms_id Hms].
  { apply Forall_cons in Hwf as [[k Hk] _]. unfold raw_key in Hk.
    destruct (raw_movie_session t0); [by eexists | done]. }
  destruct (group_tickets_first _ _ _ _ _ Hms Hg) as (requested & tail & ->).
  destruct (check_group_spec attrs ms_id requested w)
    as (conflicts & w' & Hdb & Hconf & Hcheck).
  assert (w' = {| db := db w;
                  log := log w ++
                    [QTicketFilter ms_id (elements requested).*1] |})
    as Hw'.
  { unfold check_group in Hcheck.
    destruct (Ticket_filter_values_eq ms_id (elements requested).*1 w)
      as (existing & He & _).
    erewrite bind_ok in Hcheck by exact He.
    repeat (match type of Hcheck with
            | context [bool_decide ?P] => destruct (bool_decide P)
            end); by injection Hcheck. }
  destruct (decide (conflicts = [])) as [->|Hne].
  - rewrite bool_decide_eq_false_2 in Hcheck by (intros Hnn; by apply Hnn).
    erewrite bind_ok;
      [| simpl; erewrite bind_ok by exact Hcheck; reflexivity ].
    simpl. split_and!; [done..|]. by eexists _, _.
  - rewrite bool_decide_eq_true_2 in Hcheck by done.
    erewrite bind_err;
      [| simpl; erewrite bind_err by exact Hcheck; reflexivity ].
    split_and!; [done| |by eexists _, _].
    intros [[m r] s] (-> & Hreq & Htaken)%Hconf. split; [|done].
    specialize (Hholds ms_id r s). simpl in Hholds.
    rewrite bool_decide_eq_true_2 in Hholds by done. simpl in Hholds.
    apply Hholds in Hreq. set_solver.
Qed.

Lemma some_item_error (rs : list (ItemError + TicketData)) :
  forallb (λ r, bool_decide (item_error r = None)) rs = false →
  ∃ e, Some e ∈ item_error <$> rs.
Proof.
  induction rs as [|r rs IH]; simpl; [done|].
  destruct r as [e|td]; simpl.
  - intros _. exists e. apply elem_of_cons. by left.
  - intros [e He]%IH. exists e. apply elem_of_cons. by right.
Qed.

Lemma Tickets_run_validation_well_formed (data : list RawTicket)
    (attrs : Attrs) (w w' : World) :
  Tickets_run_validation data w = (inr attrs, w') →
  Forall (λ t, is_Some (field_key t)) data.
Proof.
  intros Hv%Tickets_run_validation_ok.
  induction Hv; constructor; eauto.
Qed.

Lemma validate_stops_at_malformed (tickets_payload : list RawTicket)
    (attrs : Attrs) (w : World) :
  Exists (λ t, raw_key t = None) tickets_payload →
  OrderCreateSerializer_validate (Some tickets_payload) attrs w =
    (inl MalformedTickets, w).
Proof.
  intros Hex. unfold OrderCreateSerializer_validate.
  change (default [] (Some tickets_payload)) with tickets_payload.
  rewrite bool_decide_eq_false_2.
  2:{ intros ->. by apply Exists_nil in Hex. }
  by rewrite group_tickets_malformed.
Qed.

(** Either [int(..)] reads every entry, or it raises on one of them. *)
Lemma int_reads_all_or_raises (tickets_payload : list RawTicket) :
  Forall (λ t, is_Some (raw_key t)) tickets_payload ∨
  Exists (λ t, raw_key t = None) tickets_payload.
Proof.
  induction tickets_payload as [|t rest [IH|IH]].
  - left. constructor.
  - destruct (raw_key t) as [k|] eqn:Hk.
    + left. constructor; [by rewrite Hk; eexists | done].
    + right. by apply Exists_cons_hd.
  - right. by apply Exists_cons_tl.
Qed.

Lemma validate_went_on (tickets_payload : list RawTicket)
    (attrs : Attrs) (w w' : World) (r : option Attrs) :
  OrderCreateSerializer_validate (Some tickets_payload) attrs w =
    (inr r, w') →
  Forall (λ t, is_Some (raw_key t)) tickets_payload.
Proof.
  intros Hv.
  destruct (int_reads_all_or_raises tickets_payload) as [Hwf|Hbad];
    [done|].
  rewrite (validate_stops_at_malformed _ attrs w Hbad) in Hv. done.
Qed.

(** X3. Whatever the request, a booking never ends with [validate]
    returning nothing: the loop over the session groups always meets a
    first group.  It ends with the malformed-entry error of [validate]
    only on a batch whose entries the serializer fields all read as
    integers while [int(..)] raises on one of them; entries that the
    fields do not read are stopped earlier, by the per-entry checks.
    The empty error means an empty list, the duplicates and taken-seats
    errors list at least one seat, and the per-entry errors come one
    slot per entry with at least one slot filled. *)
Theorem createOrder_errors (user : Z) (tickets_payload : list RawTicket)
    (w : World) :
  match (createOrder user tickets_payload w).1 with
  | inl ValidateReturnedNone => False
  | inl MalformedTickets =>
      Forall (λ t, is_Some (field_key t)) tickets_payload ∧
      Exists (λ t, raw_key t = None) tickets_payload
  | inl EmptyTickets => tickets_payload = []
  | inl (DuplicateTickets duplicates) => duplicates ≠ []
  | inl (TakenTickets conflicts) => conflicts ≠ []
  | inl (TicketErrors errors) =>
      length errors = length tickets_payload ∧
      ∃ e, Some e ∈ errors
  | inl IntegrityError | inr _ => True
  end.
Proof.
  unfold createOrder, is_valid.
  destruct (Tickets_run_validation tickets_payload w) as [[e|attrs] w0]
    eqn:Hv.
  - erewrite !bind_err by (try apply bind_err; exact Hv). simpl.
    unfold Tickets_run_validation in Hv.
    destruct (Tickets_each_ok tickets_payload w) as (rs & w1 & Hrs & Hks).
    erewrite bind_ok in Hv by exact Hrs.
    destruct (forallb _ rs) eqn:Hall; [done|].
    injection Hv as <- <-. rewrite length_fmap.
    split; [symmetry; by eapply Forall2_length|].
    by apply some_item_error.
  - pose proof (Tickets_run_validation_well_formed _ _ _ _ Hv) as Hfields.
    destruct (int_reads_all_or_raises tickets_payload) as [Hwf|Hbad].
    2:{ erewrite bind_err.
        2:{ erewrite bind_ok by exact Hv.
            by erewrite bind_err
              by exact (validate_stops_at_malformed _ attrs w0 Hbad). }
        done. }
    pose proof (validate_well_formed tickets_payload attrs w0 Hwf) as Hval.
    destruct (OrderCreateSerializer_validate (Some tickets_payload) attrs w0)
      as [[e|[a|]] w1] eqn:Hr.
    + erewrite bind_err.
      2:{ erewrite bind_ok by exact Hv. by erewrite bind_err by exact Hr. }
      simpl. destruct e; naive_solver.
    + destruct Hval as (-> & _).
      erewrite bind_ok.
      2:{ erewrite bind_ok by exact Hv. by erewrite bind_ok by exact Hr. }
      destruct (OrderCreateSerializer_create user attrs w1)
        as [[e|order] w'] eqn:Hc; simpl; [|done].
      by apply create_err in Hc as [_ ->].
    + done.
Qed.

(** ** When a booking succeeds *)

Lemma Ticket_run_validation_inr (t : RawTicket) (td : TicketData)
    (w w' : World) :
  Ticket_run_validation t w = (inr (inr td), w') →
  db w' = db w ∧
  field_key t = Some (data_key td) ∧
  sessions (db w) !! session_id (data_movie_session td) =
    Some (cinema_hall (data_movie_session td)) ∧
  1 ≤ data_row td ≤ rows (cinema_hall (data_movie_session td)) ∧
  1 ≤ data_seat td ≤ seats_in_row (cinema_hall (data_movie_session td)).
Proof.
  unfold Ticket_run_validation, field_key.
  destruct t as [im ir iz [pk|] [r|] [s|]]; simpl;
    try (erewrite bind_ok by apply MovieSession_get_eq);
    try (by intros [=]).
  destruct (sessions (db w) !! pk) as [hall|] eqn:Hs; simpl;
    [| by intros [=]].
  rewrite validate_accepts. case_bool_decide as Hb; [| by intros [=]].
  intros [= <- <-]. simpl. by destruct Hb.
Qed.

Lemma Ticket_run_validation_bookable (t : RawTicket) (ms_id r s : Z)
    (hall : CinemaHall) (w : World) :
  field_key t = Some (ms_id, r, s) →
  sessions (db w) !! ms_id = Some hall →
  1 ≤ r ≤ rows hall → 1 ≤ s ≤ seats_in_row hall →
  ∃ td w', Ticket_run_validation t w = (inr (inr td), w') ∧ db w' = db w.
Proof.
  unfold Ticket_run_validation, field_key.
  destruct t as [im ir iz [pk|] [r'|] [s'|]]; simpl; try by intros [=].
  intros [= -> -> ->] Hs Hr Hc.
  erewrite bind_ok by apply MovieSession_get_eq. rewrite Hs. simpl.
  rewrite validate_accepts. simpl.
  rewrite bool_decide_eq_true_2 by done. by eexists _, _.
Qed.

Lemma Tickets_each_grid (data : list RawTicket)
    (rs : list (ItemError + TicketData)) (w w' : World) :
  Tickets_each data w = (inr rs, w') →
  Forall2 (λ t r, ∀ td, r = inr td →
                  field_key t = Some (data_key td) ∧ data_in_grid (db w) td)
          data rs.
Proof.
  revert rs w. induction data as [|t data IH]; intros rs w; simpl.
  - intros [= <- _]. constructor.
  - intros Hb.
    apply bind_inv in Hb as [(e & _ & [=])|(r & w1 & Hr & Hb)].
    apply bind_inv in Hb as [(e & _ & [=])|(rs' & w2 & Hrs & Hb)].
    injection Hb as <- <-.
    pose proof (read_only_Ticket_run_validation t w) as Hro.
    rewrite Hr in Hro. simpl in Hro.
    constructor.
    + intros td ->. by apply Ticket_run_validation_inr in Hr as (_ & ? & ?).
    + apply IH in Hrs. by rewrite Hro in Hrs.
Qed.

Lemma Tickets_run_validation_grid (data : list RawTicket) (attrs : Attrs)
    (w w' : World) :
  Tickets_run_validation data w = (inr attrs, w') →
  Forall2 (λ t td, field_key t = Some (data_key td) ∧ data_in_grid (db w) td)
          data attrs.
Proof.
  unfold Tickets_run_validation. intros Hb.
  apply bind_inv in Hb as [(e & _ & [=])|(rs & w1 & Hrs & Hb)].
  apply Tickets_each_grid in Hrs.
  destruct (forallb _ rs) eqn:Hall; [| by injection Hb].
  injection Hb as <- <-.
  induction Hrs as [|t r data rs Hk Hks IH]; simpl in *; [constructor|].
  apply andb_prop in Hall as [Hr Hall].
  destruct r as [e|td]; simpl in *; [done|].
  constructor; [by apply Hk | by apply IH].
Qed.

Lemma Tickets_run_validation_succeeds (data : list RawTicket) (w : World) :
  Forall (λ t, ∃ ms_id r s hall,
               field_key t = Some (ms_id, r, s) ∧
               sessions (db w) !! ms_id = Some hall ∧
               1 ≤ r ≤ rows hall ∧ 1 ≤ s ≤ seats_in_row hall) data →
  ∃ attrs w', Tickets_run_validation data w = (inr attrs, w').
Proof.
  intros Hall.
  assert (∃ tds w', Tickets_each data w = (inr (inr <$> tds), w')) as Heach.
  { revert w Hall. induction data as [|t data IH]; intros w Hall; simpl.
    - by exists [], w.
    - apply Forall_cons in Hall as [(ms_id & r & s & hall & Hk & Hs & Hr & Hc)
                                    Hall].
      destruct (Ticket_run_validation_bookable t ms_id r s hall w Hk Hs Hr Hc)
        as (td & w1 & Hone & Hdb).
      rewrite <- Hdb in Hall.
      destruct (IH w1 Hall) as (tds & w2 & Hrest).
      exists (td :: tds), w2.
      erewrite bind_ok by exact Hone. by erewrite bind_ok by exact Hrest. }
  destruct Heach as (tds & w' & Heach).
  unfold Tickets_run_validation. erewrite bind_ok by exact Heach.
  assert (forallb (λ r, bool_decide (item_error r = None))
            (inr <$> tds : list (ItemError + TicketData)) = true) as Hall'.
  { clear. induction tds as [|td tds IH]; [done|]. exact IH. }
  cbv beta. rewrite Hall'. by eexists _, _.
Qed.

Lemma Ticket_bulk_create_succeeds (objs : list Ticket) (w : World) :
  NoDup (seat_key <$> objs) →
  (∀ t, t ∈ objs → seat_key t ∉ seat_key <$> tickets (db w)) →
  ∃ w', Ticket_bulk_create objs w = (inr (), w').
Proof.
  revert w. induction objs as [|t objs IH]; intros w Hnd Hfree; simpl.
  - by exists w.
  - rewrite fmap_cons in Hnd. apply NoDup_cons in Hnd as [Ht Hnd].
    pose proof (Ticket_insert_eq t w) as Hi. unfold violates_unique in Hi.
    rewrite bool_decide_eq_false_2 in Hi by (apply Hfree; set_solver).
    erewrite bind_ok by exact Hi.
    apply IH; [done|]. intros t' Ht'. simpl. rewrite fmap_app. simpl.
    intros [Hin|Hin%list_elem_of_singleton]%elem_of_app.
    + by apply (Hfree t'); [set_solver|].
    + apply Ht. apply list_elem_of_fmap. exists t'. split; [|done].
      symmetry. exact Hin.
Qed.

Lemma Ticket_bulk_create_free (objs : list Ticket) (w w' : World) :
  Ticket_bulk_create objs w = (inr (), w') →
  NoDup (seat_key <$> objs) ∧
  ∀ t, t ∈ objs → seat_key t ∉ seat_key <$> tickets (db w).
Proof.
  revert w. induction objs as [|t objs IH]; intros w; simpl.
  - intros _. split; [constructor | set_solver].
  - intros Hb. apply bind_inv in Hb as [(e & _ & [=])|([] & w1 & Hi & Hb)].
    rewrite Ticket_insert_eq in Hi. unfold violates_unique in Hi.
    case_bool_decide as Hfree; [done|]. injection Hi as <-.
    apply IH in Hb as [Hnd Hrest]. simpl in Hrest.
    assert (∀ t', t' ∈ objs → seat_key t' ≠ seat_key t ∧
                  seat_key t' ∉ seat_key <$> tickets (db w)) as Hboth.
    { intros t' Ht'. specialize (Hrest t' Ht').
      rewrite fmap_app in Hrest. simpl in Hrest.
      split; intros Hbad; apply Hrest, elem_of_app; [right | by left].
      apply list_elem_of_singleton. by rewrite Hbad. }
    split.
    + apply NoDup_cons. split; [|done].
      intros (t' & Heq & Ht')%list_elem_of_fmap.
      by destruct (Hboth t' Ht') as [Hne _].
    + intros t' [->|Ht']%elem_of_cons; [done|]. by apply Hboth.
Qed.

Lemma new_ticket_keys (order : Order) (attrs : Attrs) :
  seat_key <$> (new_ticket order <$> attrs) = data_key <$> attrs.
Proof. rewrite <- list_fmap_compose. by apply list_fmap_ext. Qed.

Lemma create_succeeds (user : Z) (attrs : Attrs) (w : World) :
  NoDup (data_key <$> attrs) →
  (∀ k, k ∈ data_key <$> attrs → ¬ taken (db w) k) →
  ∃ order w', OrderCreateSerializer_create user attrs w = (inr order, w').
Proof.
  intros Hnd Hfree. unfold OrderCreateSerializer_create, atomic.
  erewrite bind_ok by apply Order_create_eq.
  set (order := {| order_id := _ |}). set (w1 := {| db := _ |}).
  destruct (Ticket_bulk_create_succeeds (new_ticket order <$> attrs) w1)
    as (w2 & Hb).
  - by rewrite new_ticket_keys.
  - intros t Ht. apply Hfree. rewrite <- (new_ticket_keys order).
    by apply list_elem_of_fmap_2.
  - erewrite bind_ok by exact Hb. by eexists _, _.
Qed.

Lemma create_free (user : Z) (attrs : Attrs) (w w' : World) (order : Order) :
  OrderCreateSerializer_create user attrs w = (inr order, w') →
  NoDup (data_key <$> attrs) ∧
  ∀ k, k ∈ data_key <$> attrs → ¬ taken (db w) k.
Proof.
  unfold OrderCreateSerializer_create.
  intros [(e' & w1 & _ & [=] & _)|(a & Hb & [= <-])]%atomic_inv.
  apply Order_create_inv in Hb.
  apply bind_inv in Hb as [(e & _ & [=])|([] & w3 & Hb & [= <- <-])].
  apply Ticket_bulk_create_free in Hb as [Hnd Hfree].
  rewrite new_ticket_keys in Hnd. split; [done|].
  intros k Hk. erewrite <- new_ticket_keys in Hk.
  apply list_elem_of_fmap in Hk as (t & -> & Ht).
  specialize (Hfree t Ht). simpl in Hfree. exact Hfree.
Qed.

Lemma omap_field_key_cons (t : RawTicket) (rest : list RawTicket) :
  omap field_key (t :: rest) =
    match field_key t with
    | Some k => k :: omap field_key rest
    | None => omap field_key rest
    end.
Proof. reflexivity. Qed.

Lemma payload_keys (tickets_payload : list RawTicket) (attrs : Attrs)
    (P : TicketData → Prop) :
  Forall2 (λ t td, field_key t = Some (data_key td) ∧ P td)
          tickets_payload attrs →
  omap field_key tickets_payload = data_key <$> attrs.
Proof.
  induction 1 as [|t td ?? [Hk _] _ IH]; [done|].
  rewrite omap_field_key_cons, Hk, fmap_cons. by f_equal.
Qed.

Lemma payload_entries (tickets_payload : list RawTicket) (attrs : Attrs)
    (P : TicketData → Prop) :
  Forall2 (λ t td, field_key t = Some (data_key td) ∧ P td)
          tickets_payload attrs →
  Forall (λ t, ∃ td, td ∈ attrs ∧ field_key t = Some (data_key td) ∧ P td)
         tickets_payload.
Proof.
  induction 1 as [|t td ?? [Hk HP] _ IH]; constructor.
  - exists td. split; [by left | done].
  - eapply Forall_impl; [exact IH|]. intros t' (td' & ? & ?).
    exists td'. split; [by right | done].
Qed.

(** Where both readers read every entry and never contradict each
    other, they read the same coordinates. *)
Lemma readers_agree_keys (tickets_payload : list RawTicket) :
  Forall readers_agree tickets_payload →
  Forall (λ t, is_Some (field_key t)) tickets_payload →
  Forall (λ t, is_Some (raw_key t)) tickets_payload →
  Forall (λ t, raw_key t = field_key t) tickets_payload.
Proof.
  rewrite !Forall_forall. intros Ha Hf Hr t Ht.
  destruct (Hf t Ht) as [k Hk], (Hr t Ht) as [k' Hk'].
  rewrite Hk, Hk'. f_equal. symmetry. by apply (Ha t Ht).
Qed.

Lemma same_keys (tickets_payload : list RawTicket) :
  Forall (λ t, raw_key t = field_key t) tickets_payload →
  omap raw_key tickets_payload = omap field_key tickets_payload.
Proof.
  induction 1 as [|t rest Hk _ IH]; [done|].
  by rewrite omap_raw_key_cons, omap_field_key_cons, Hk, IH.
Qed.

(** X6. On a batch on whose entries the two readers never contradict
    each other, a booking succeeds exactly when the batch is not empty,
    asks for no coordinate twice, and every entry can be booked: fields
    that the serializer and [int(..)] both read as the same integers, a
    known session, a seat inside the hall and not sold yet.  An entry
    that only one of the two readers accepts cannot be booked.  A sold
    seat in a later session group, which the pre-check overlooks, still
    makes the booking fail, on the insert. *)
Theorem booking_succeeds_iff (user : Z) (tickets_payload : list RawTicket)
    (w : World) :
  Forall readers_agree tickets_payload →
  (∃ order w', createOrder user tickets_payload w = (inr order, w')) ↔
  tickets_payload ≠ [] ∧
  NoDup (omap field_key tickets_payload) ∧
  Forall (bookable (db w)) tickets_payload.
Proof.
  intros Hagree. split.
  - intros (order & w' & Hc).
    destruct (createOrder_inv user tickets_payload w)
      as [(e & w2 & He & _)|(o & attrs & w1 & w2 & _ & Hv & Hdb & Hcr)];
      [congruence|].
    apply is_valid_inv in Hv as (w0 & Hf & Hval).
    pose proof (Tickets_run_validation_well_formed _ _ _ _ Hf) as Hfields.
    pose proof (validate_went_on _ _ _ _ _ Hval) as Hwf.
    pose proof (readers_agree_keys _ Hagree Hfields Hwf) as Hsame.
    pose proof (validate_well_formed tickets_payload attrs w0 Hwf) as Hm.
    rewrite Hval in Hm. destruct Hm as (_ & Hnd & _).
    rewrite (same_keys _ Hsame) in Hnd.
    apply Tickets_run_validation_grid in Hf.
    apply create_free in Hcr as [_ Hfree]. rewrite Hdb in Hfree.
    split_and!; [|done|].
    + intros ->. by vm_compute in Hval.
    + apply payload_entries in Hf.
      rewrite Forall_forall in Hf, Hsame. apply Forall_forall.
      intros t Ht.
      destruct (Hf t Ht) as (td & Htd & Hk & Hs & Hr & Hs').
      exists (session_id (data_movie_session td)), (data_row td),
        (data_seat td), (cinema_hall (data_movie_session td)).
      split; [done|]. split; [by rewrite (Hsame t Ht)|].
      do 3 (split; [done|]).
      apply Hfree. by apply (list_elem_of_fmap_2 data_key).
  - intros (Hne & Hnd & Hall).
    destruct (Tickets_run_validation_succeeds tickets_payload w)
      as (attrs & w0 & Hf).
    { eapply Forall_impl; [exact Hall|].
      intros t (ms_id & r & s & hall & ? & ? & ? & ? & ? & _).
      by exists ms_id, r, s, hall. }
    assert (db w0 = db w) as Hdb.
    { pose proof (read_only_Tickets_run_validation tickets_payload w) as Hro.
      by rewrite Hf in Hro. }
    assert (Forall (λ t, is_Some (raw_key t)) tickets_payload) as Hwf.
    { eapply Forall_impl; [exact Hall|].
      intros t (ms_id & r & s & hall & _ & -> & _). by eexists. }
    assert (Forall (λ t, raw_key t = field_key t) tickets_payload) as Hsame.
    { eapply Forall_impl; [exact Hall|].
      intros t (ms_id & r & s & hall & -> & -> & _). done. }
    assert (∀ k, k ∈ omap field_key tickets_payload → ¬ taken (db w) k)
      as Hfree.
    { intros k (t & Ht & Hk)%list_elem_of_omap.
      rewrite Forall_forall in Hall.
      destruct (Hall t Ht)
        as (ms_id & r & s & hall & Hk' & _ & _ & _ & _ & Hn).
      congruence. }
    pose proof (validate_well_formed tickets_payload attrs w0 Hwf) as Hm.
    rewrite (same_keys _ Hsame) in Hm.
    pose proof (Tickets_run_validation_grid _ _ _ _ Hf) as Hgrid.
    destruct (OrderCreateSerializer_validate (Some tickets_payload) attrs w0)
      as [[e|[a|]] w1] eqn:Hval; [| |done].
    { destruct e; try done.
      - by destruct Hm.
      - by destruct Hm as (_ & Hbad & _).
      - destruct Hm as (Hc & Htk & _). destruct conflicts as [|c cs]; [done|].
        destruct (Htk (ref_key c)) as [Hin Ht]; [set_solver|].
        rewrite Hdb in Ht. by apply Hfree in Hin. }
    destruct Hm as (-> & _ & ms_id & row__in & ->).
    destruct (create_succeeds user attrs
                {| db := db w0;
                   log := log w0 ++ [QTicketFilter ms_id row__in] |})
      as (order & w' & Hcr).
    { by rewrite <- (payload_keys _ _ _ Hgrid). }
    { simpl. rewrite Hdb, <- (payload_keys _ _ _ Hgrid). exact Hfree. }
    exists order, w'. unfold createOrder, is_valid.
    erewrite bind_ok; [exact Hcr|].
    erewrite bind_ok by exact Hf. by erewrite bind_ok by exact Hval.
Qed.

(** Session 1 of the sample store, a seat asked for with three JSON
    integers and one asked for with row [true], which [int(..)] reads as
    1 and the integer field rejects: the readers do not contradict each
    other, and the characterisation applies. *)
Lemma booking_succeeds_iff_witness :
  let batch := [request 1 1 1; request_fraction_row 1 1 2] in
  Forall readers_agree batch ∧
  ((∃ order w', createOrder 7 batch fresh = (inr order, w')) ↔
   batch ≠ [] ∧ NoDup (omap field_key batch) ∧
   Forall (bookable (db fresh)) batch).
Proof.
  assert (Forall readers_agree
            [request 1 1 1; request_fraction_row 1 1 2]) as Hagree.
  { repeat (apply Forall_cons_2; [|]); [| |apply Forall_nil_2].
    - intros k k' [= <-] [= <-]. reflexivity.
    - intros k k' [=]. }
  split; [exact Hagree|].
  exact (booking_succeeds_iff 7 _ fresh Hagree).
Defined.

(** The booking of that batch is turned down by the per-entry checks,
    and the same batch with both rows as integers goes through. *)
Example fraction_row_not_booked :
  (createOrder 7 [request 1 1 1; request_fraction_row 1 1 2] fresh).1 =
    inl (TicketErrors [None; Some NotAnInteger]) ∧
  (createOrder 7 [request 1 1 1; request 1 1 2] fresh).1 =
    inr {| order_id := 1; order_user := 7 |}.
Proof. split; vm_compute; reflexivity. Qed.

(** ** Seats stay inside the hall *)

Lemma createOrder_keeps_grid (user : Z) (tickets_payload : list RawTicket)
    (w : World) :
  in_grid (db w) → in_grid (db (createOrder user tickets_payload w).2).
Proof.
  intros Hg.
  destruct (createOrder_inv user tickets_payload w)
    as [(e & w2 & -> & Hdb)|(o & attrs & w1 & w2 & -> & Hv & Hdb & Hcr)];
    simpl; [by rewrite Hdb|].
  apply is_valid_inv in Hv as (w0 & Hf & _).
  apply Tickets_run_validation_grid in Hf.
  apply create_ok in Hcr as (_ & Hs & _ & added & Ht & Hadd).
  rewrite Hdb in Hs, Ht.
  intros t. rewrite Ht, elem_of_app. intros [Hin|Hin].
  { rewrite Hs. by apply Hg. }
  rewrite Hs.
  assert (Forall (λ td, data_in_grid (db w) td) attrs) as Hattrs.
  { clear -Hf. induction Hf as [|???? [_ ?]]; constructor; done. }
  clear -Hadd Hattrs Hin.
  induction Hadd as [|td t' attrs added [Hk _] _ IH]; [set_solver|].
  apply Forall_cons in Hattrs as [(Hses & Hr & Hc) Hattrs].
  apply elem_of_cons in Hin as [->|Hin]; [|by apply IH].
  unfold seat_key, data_key in Hk. injection Hk as Hm Hrow Hseat.
  exists (cinema_hall (data_movie_session td)).
  rewrite Hm, Hrow, Hseat. done.
Qed.

(** X7. Starting from a store whose tickets all lie on known sessions and
    inside the grid of their session's hall, every state reached by
    bookings is such a store: no booking ever persists a seat outside
    the hall or for a session the store does not know. *)
Theorem seats_stay_in_grid (w0 w : World) :
  in_grid (db w0) → reachable w0 w → in_grid (db w).
Proof.
  intros Hg Hr. induction Hr as [|w user tickets_payload _ IH]; [done|].
  by apply createOrder_keeps_grid.
Qed.

Lemma in_grid_fresh : in_grid (db fresh).
Proof. intros t Ht. simpl in Ht. by apply elem_of_nil in Ht. Qed.

(** The sample store after two bookings, the second partly out of the
    hall. *)
Lemma seats_stay_in_grid_witness :
  in_grid
    (db (createOrder 8 [request 1 11 1; request 1 2 2]
           (createOrder 7 [request 2 4 4] fresh).2).2).
Proof.
  apply (seats_stay_in_grid fresh).
  - apply in_grid_fresh.
  - do 2 apply reach_order. apply reach_start.
Defined.

(** ** Taken places and availability *)

Lemma taken_places_length (tickets : list Ticket) (obj : MovieSession) :
  Z.of_nat (length (get_taken_places tickets obj)) =
    count_tickets tickets obj.
Proof. unfold get_taken_places, count_tickets. by rewrite length_fmap. Qed.

Lemma elem_of_taken_places (tickets : list Ticket) (obj : MovieSession)
    (r s : Z) :
  (r, s) ∈ get_taken_places tickets obj ↔
  (session_id obj, r, s) ∈ seat_key <$> tickets.
Proof.
  unfold get_taken_places. rewrite !list_elem_of_fmap.
  setoid_rewrite list_elem_of_filter. unfold seat_key. split.
  - intros (t & [= -> ->] & <- & Ht). by exists t.
  - intros (t & [= -> -> ->] & Ht). by exists t.
Qed.

Lemma taken_places_NoDup (d : DB) (obj : MovieSession) :
  unique_seats d → NoDup (get_taken_places (tickets d) obj).
Proof.
  unfold unique_seats, get_taken_places. intros Hu.
  induction (tickets d) as [|t ts IH]; [constructor|].
  rewrite fmap_cons in Hu. apply NoDup_cons in Hu as [Ht Hu].
  rewrite filter_cons. case_decide as Hms; [|by apply IH].
  rewrite fmap_cons. apply NoDup_cons. split; [|by apply IH].
  intros (t' & [= Hr Hs] & [Hms' Ht']%list_elem_of_filter)%list_elem_of_fmap.
  apply Ht. apply list_elem_of_fmap. exists t'. split; [|done].
  unfold seat_key. congruence.
Qed.

Lemma taken_places_in_grid (d : DB) (obj : MovieSession) (r s : Z) :
  in_grid d → known_session d obj →
  (r, s) ∈ get_taken_places (tickets d) obj →
  1 ≤ r ≤ rows (cinema_hall obj) ∧ 1 ≤ s ≤ seats_in_row (cinema_hall obj).
Proof.
  unfold known_session, get_taken_places. intros Hg Hs.
  intros (t & [= -> ->] & [Hms Ht]%list_elem_of_filter)%list_elem_of_fmap.
  destruct (Hg t Ht) as (hall & Hhall & Hr & Hc).
  rewrite Hms, Hs in Hhall. by injection Hhall as <-.
Qed.

Lemma grid_length (n m : Z) :
  Z.of_nat (length (cprod (seqZ 1 n) (seqZ 1 m))) = Z.max n 0 * Z.max m 0.
Proof.
  rewrite list_cprod_list_prod, length_prod, !length_seqZ. lia.
Qed.

Lemma sold_le_capacity (d : DB) (obj : MovieSession) :
  in_grid d → unique_seats d → known_session d obj →
  0 ≤ capacity (cinema_hall obj) →
  count_tickets (tickets d) obj ≤ capacity (cinema_hall obj).
Proof.
  intros Hg Hu Hs Hcap.
  rewrite <- taken_places_length.
  pose proof (taken_places_NoDup d obj Hu) as Hnd.
  pose proof (λ r s, taken_places_in_grid d obj r s Hg Hs) as Hin.
  destruct (get_taken_places (tickets d) obj) as [|[r0 s0] l] eqn:Hl;
    [simpl; lia|].
  destruct (Hin r0 s0) as [Hr0 Hs0]; [set_solver|].
  assert ((r0, s0) :: l ⊆+
            cprod (seqZ 1 (rows (cinema_hall obj)))
                  (seqZ 1 (seats_in_row (cinema_hall obj)))) as Hsub.
  { apply NoDup_submseteq; [done|]. intros [r s] Hrs.
    apply Hin in Hrs as [Hr Hc].
    apply list_elem_of_cprod. simpl. rewrite !elem_of_seqZ. lia. }
  apply submseteq_length in Hsub. apply Nat2Z.inj_le in Hsub.
  rewrite grid_length in Hsub. unfold capacity. lia.
Qed.

(** X8. In a store whose tickets are inside their halls and unique per
    seat, a session never has more tickets than its hall has seats (the
    hall's capacity taken as non-negative): the availability is exactly
    capacity minus tickets sold, the clamp at zero is never at work, and
    available plus taken places add up to the capacity. *)
Theorem sold_within_capacity (d : DB) (obj : MovieSession) :
  in_grid d → unique_seats d → known_session d obj →
  0 ≤ capacity (cinema_hall obj) →
  count_tickets (tickets d) obj ≤ capacity (cinema_hall obj) ∧
  get_tickets_available (tickets d) obj =
    capacity (cinema_hall obj) - count_tickets (tickets d) obj ∧
  get_tickets_available (tickets d) obj +
    Z.of_nat (length (get_taken_places (tickets d) obj)) =
    capacity (cinema_hall obj).
Proof.
  intros Hg Hu Hs Hcap.
  pose proof (sold_le_capacity d obj Hg Hu Hs Hcap) as Hle.
  rewrite taken_places_length. unfold get_tickets_available.
  split_and!; lia.
Qed.

(** Two seats sold in a 10 × 15 hall: 148 left. *)
Lemma sold_within_capacity_witness :
  let obj := {| session_id := 1; cinema_hall := blue_hall |} in
  count_tickets (tickets (db sold_both)) obj ≤ capacity blue_hall ∧
  get_tickets_available (tickets (db sold_both)) obj =
    capacity blue_hall - count_tickets (tickets (db sold_both)) obj ∧
  get_tickets_available (tickets (db sold_both)) obj +
    Z.of_nat (length (get_taken_places (tickets (db sold_both)) obj)) =
    capacity blue_hall.
Proof.
  apply (sold_within_capacity (db sold_both)
           {| session_id := 1; cinema_hall := blue_hall |}).
  - apply (createOrder_keeps_grid 7 [request 1 4 4; request 2 4 4] fresh),
      in_grid_fresh.
  - apply (bool_decide_unpack _). by vm_compute.
  - by vm_compute.
  - by vm_compute.
Defined.

(** ** Booking, then looking *)

Lemma createOrder_ok (user : Z) (tickets_payload : list RawTicket)
    (w w' : World) (order : Order) :
  createOrder user tickets_payload w = (inr order, w') →
  order = {| order_id := Z.of_nat (length (orders (db w))) + 1;
             order_user := user |} ∧
  sessions (db w') = sessions (db w) ∧
  orders (db w') = orders (db w) ++ [order] ∧
  ∃ added, tickets (db w') = tickets (db w) ++ added ∧
           Forall2 (λ raw t, field_key raw = Some (seat_key t) ∧
                             ticket_order t = order_id order)
                   tickets_payload added.
Proof.
  intros Hc.
  destruct (createOrder_inv user tickets_payload w)
    as [(e & w2 & He & _)|(o & attrs & w1 & w2 & Ho & Hv & Hdb & Hcr)];
    [congruence|].
  rewrite Hc in Ho. injection Ho as <- <-.
  assert (order = {| order_id := Z.of_nat (length (orders (db w))) + 1;
                     order_user := user |}) as Horder.
  { unfold OrderCreateSerializer_create in Hcr.
    apply atomic_inv in Hcr as [(? & ? & _ & [=] & _)|(a & Hb & [= <-])].
    apply Order_create_inv in Hb.
    apply bind_inv in Hb as [(e & _ & [=])|([] & w3 & _ & [= <- _])].
    by rewrite Hdb. }
  apply create_ok in Hcr as (_ & Hs & Ho & added & Ht & Hadd).
  apply is_valid_ok in Hv. rewrite Hdb in *.
  split_and!; try done. exists added. split; [done|].
  clear -Hv Hadd. revert added Hadd.
  induction Hv as [|raw td ?? Hk ? IH]; intros added Hadd.
  - apply Forall2_nil_inv_l in Hadd as ->. constructor.
  - apply Forall2_cons_inv_l in Hadd as (t & added' & [Hkt Ho] & Hadd & ->).
    constructor; [| by apply IH]. split; [by rewrite Hk, Hkt | done].
Qed.

Lemma added_places (order : Order) (tickets_payload : list RawTicket)
    (added : list Ticket) (obj : MovieSession) :
  Forall2 (λ raw t, field_key raw = Some (seat_key t) ∧
                    ticket_order t = order_id order)
          tickets_payload added →
  get_taken_places added obj = requested_in (session_id obj) tickets_payload.
Proof.
  unfold get_taken_places, requested_in.
  induction 1 as [|raw t payload added [Hk _] _ IH]; [done|].
  rewrite filter_cons. simpl. rewrite Hk. unfold seat_key at 1.
  case_decide as Hms.
  - rewrite bool_decide_eq_true_2 by done. rewrite fmap_cons. by f_equal.
  - rewrite bool_decide_eq_false_2 by done. done.
Qed.

(** X10. What the session detail shows after a booking: when the booking
    fails, the taken places of every session are what they were; when
    it succeeds, the places the batch asked for in that session, as the
    serializer fields read them, come on top, each as often as the
    batch has it, and nothing else changes.  The queryset of
    [get_taken_places] is not ordered, so both facts are stated up to
    the order of the list. *)
Theorem booking_updates_taken_places (user : Z)
    (tickets_payload : list RawTicket) (w : World) (obj : MovieSession) :
  match createOrder user tickets_payload w with
  | (inl _, w') =>
      get_taken_places (tickets (db w')) obj ≡ₚ
        get_taken_places (tickets (db w)) obj
  | (inr _, w') =>
      get_taken_places (tickets (db w')) obj ≡ₚ
        get_taken_places (tickets (db w)) obj ++
        requested_in (session_id obj) tickets_payload
  end.
Proof.
  destruct (createOrder user tickets_payload w) as [[e|order] w'] eqn:Hc.
  - destruct (createOrder_inv user tickets_payload w)
      as [(e' & w2 & He & Hdb)|(o & ? & ? & ? & Ho & _)]; [|congruence].
    rewrite Hc in He. injection He as <- <-. by rewrite Hdb.
  - apply createOrder_ok in Hc as (_ & _ & _ & added & -> & Hadd).
    unfold get_taken_places at 1. rewrite filter_app, fmap_app.
    apply Permutation_app; [done|].
    by erewrite <- added_places by exact Hadd.
Qed.

(** Seat 4 of row 4 is sold in session 2; a booking adds seats 1 and 2
    of row 1 there and one seat elsewhere. *)
Example taken_places_after_two_seats :
  get_taken_places
    (tickets (db (createOrder 8 [request 2 1 1; request 1 3 3; request 2 1 2]
                    sold_2_4_4).2))
    {| session_id := 2; cinema_hall := blue_hall |}
  ≡ₚ [ (1, 1); (1, 2); (4, 4) ].
Proof.
  vm_compute. change ([(4, 4); (1, 1); (1, 2)] ≡ₚ [(1, 1); (1, 2); (4, 4)]).
  apply (Permutation_app_comm [(4, 4)] [(1, 1); (1, 2)]).
Qed.

(** X11. In a store whose tickets are inside their halls and unique per
    seat, a successful booking lowers the availability of each session
    by exactly the number of entries the batch has for that session. *)
Theorem booking_lowers_availability (user : Z)
    (tickets_payload : list RawTicket) (w w' : World) (order : Order)
    (obj : MovieSession) :
  in_grid (db w) → unique_seats (db w) → known_session (db w) obj →
  0 ≤ capacity (cinema_hall obj) →
  createOrder user tickets_payload w = (inr order, w') →
  get_tickets_available (tickets (db w')) obj =
    get_tickets_available (tickets (db w)) obj -
    Z.of_nat (length (requested_in (session_id obj) tickets_payload)).
Proof.
  intros Hg Hu Hs Hcap Hc.
  pose proof (createOrder_keeps_grid user tickets_payload w Hg) as Hg'.
  pose proof (createOrder_unique user tickets_payload w Hu) as Hu'.
  rewrite Hc in Hg', Hu'. simpl in Hg', Hu'.
  pose proof (createOrder_ok _ _ _ _ _ Hc) as (_ & Hses & _ & added & Ht & Hadd).
  assert (known_session (db w') obj) as Hs' by (unfold known_session; by rewrite Hses).
  pose proof (sold_le_capacity _ _ Hg Hu Hs Hcap) as Hle.
  pose proof (sold_le_capacity _ _ Hg' Hu' Hs' Hcap) as Hle'.
  assert (count_tickets (tickets (db w')) obj =
          count_tickets (tickets (db w)) obj +
          Z.of_nat (length (requested_in (session_id obj) tickets_payload)))
    as Hcount.
  { rewrite <- !taken_places_length, Ht,
      <- (added_places order _ _ obj Hadd).
    unfold get_taken_places. rewrite filter_app, fmap_app, length_app. lia. }
  unfold get_tickets_available. lia.
Qed.

(** Rows 1, seats 1 and 2 of session 1 on the sample store: two seats
    fewer. *)
Lemma booking_lowers_availability_witness :
  get_tickets_available
    (tickets (db (createOrder 7 [request 1 1 1; request 1 1 2] fresh).2))
    {| session_id := 1; cinema_hall := blue_hall |} =
  get_tickets_available (tickets (db fresh))
    {| session_id := 1; cinema_hall := blue_hall |} -
  Z.of_nat (length (requested_in 1 [request 1 1 1; request 1 1 2])).
Proof.
  apply (booking_lowers_availability 7 [request 1 1 1; request 1 1 2] fresh
           _ {| order_id := 1; order_user := 7 |}
           {| session_id := 1; cinema_hall := blue_hall |}).
  - apply in_grid_fresh.
  - apply NoDup_nil_2.
  - by vm_compute.
  - by vm_compute.
  - vm_compute. reflexivity.
Defined.
(** * The views *)

Lemma filter_none {A} (P : A → Prop) `{∀ x, Decision (P x)} (l : list A) :
  (∀ x, x ∈ l → ¬ P x) → filter P l = [].
Proof.
  induction l as [|x l IH]; intros Hall; [done|].
  rewrite filter_cons, decide_False by (apply Hall; set_solver).
  apply IH. intros y Hy. apply Hall. set_solver.
Qed.


(** ** Listing a user's orders *)

Section OrderList.
Context (created_at : Order → Z).

#[local] Instance newer_total : Total (newer created_at).
Proof. intros a b. unfold newer. lia. Qed.

(** X12. The order list of a user holds exactly the orders of that user,
    each as often as the table has it and none of anybody else, with the
    most recently created first. *)
Theorem orders_of_user_newest_first (d : DB) (user : Z) :
  OrderViewSet_get_queryset created_at d user ≡ₚ
    filter (λ o, order_user o = user) (orders d) ∧
  Sorted (newer created_at) (OrderViewSet_get_queryset created_at d user) ∧
  ∀ o, o ∈ OrderViewSet_get_queryset created_at d user ↔
       o ∈ orders d ∧ order_user o = user.
Proof.
  unfold OrderViewSet_get_queryset. split_and!.
  - apply merge_sort_Permutation.
  - apply Sorted_merge_sort. apply _.
  - intros o. rewrite merge_sort_Permutation, list_elem_of_filter. tauto.
Qed.

Lemma createOrder_keeps_ids (user : Z) (tickets_payload : list RawTicket)
    (w : World) :
  ids_issued (db w) → ids_issued (db (createOrder user tickets_payload w).2).
Proof.
  intros [Ho Ht].
  destruct (createOrder user tickets_payload w) as [[e|order] w'] eqn:Hc.
  - destruct (createOrder_inv user tickets_payload w)
      as [(e' & w2 & He & Hdb)|(o & ? & ? & ? & Hok & _)]; [|congruence].
    rewrite Hc in He. injection He as <- <-. simpl. by rewrite Hdb.
  - apply createOrder_ok in Hc as (-> & _ & Hos & added & Hts & Hadd).
    simpl. unfold ids_issued. rewrite Hos, Hts, length_app. simpl. split.
    + intros o [Hin|Hin%list_elem_of_singleton]%elem_of_app.
      * apply Ho in Hin. lia.
      * subst o. simpl. lia.
    + intros t [Hin|Hin]%elem_of_app.
      * apply Ht in Hin. lia.
      * clear -Hadd Hin. induction Hadd as [|???? [_ Hid] _ IH];
          [set_solver|].
        apply elem_of_cons in Hin as [->|Hin]; [|by apply IH].
        rewrite Hid. simpl. lia.
Qed.

End OrderList.


(** ** Filtering movies *)

(** Joining the pieces of [s.split(",")] with commas gives [s] back, and
    no piece holds a comma. *)
Lemma split_comma_join (s : string) :
  ∃ piece pieces,
    split_comma s = piece :: pieces ∧
    foldl (λ acc p, acc +:+ "," +:+ p) piece pieces = s.
Proof.
  assert (∀ c p ps, foldl (λ acc p, acc +:+ "," +:+ p) (String c p) ps =
                    String c (foldl (λ acc p, acc +:+ "," +:+ p) p ps))
    as Hfold.
  { intros c p ps. revert p. induction ps as [|q ps IH]; intros p; [done|].
    simpl. by rewrite <- IH. }
  induction s as [|c s (piece & pieces & Hs & Hj)]; simpl.
  - by exists "", [].
  - rewrite Hs. case_bool_decide as Hc.
    + subst c. exists "", (piece :: pieces). split; [done|].
      simpl. change ("" +:+ "," +:+ piece) with (String "," piece).
      by rewrite Hfold, Hj.
    + exists (String c piece), pieces. split; [done|]. by rewrite Hfold, Hj.
Qed.

Section MovieList.
Context (py_int : string → option Z) (py_strip : string → string)
        (icontains : string → string → bool).

Lemma elem_of_filter_related (related : Movie → list Z) (ids : list Z)
    (queryset : list Movie) (m : Movie) :
  m ∈ filter_related related ids queryset ↔
  m ∈ queryset ∧ ∃ g, g ∈ related m ∧ g ∈ ids.
Proof.
  unfold filter_related. rewrite list_elem_of_bind. split.
  - intros (m' & (g & -> & [Hg Hin]%list_elem_of_filter)%list_elem_of_fmap
               & Hm). eauto.
  - intros (Hm & g & Hg & Hin). exists m. split; [|done].
    apply list_elem_of_fmap. exists g. split; [done|].
    by apply list_elem_of_filter.
Qed.

Lemma elem_of_filter_by_ids (related : Movie → list Z)
    (param : option string) (queryset : list Movie) (m : Movie) :
  m ∈ filter_by_ids py_int py_strip related param queryset ↔
  m ∈ queryset ∧
  match active_ids py_int py_strip param with
  | Some ids => ∃ g, g ∈ related m ∧ g ∈ ids
  | None => True
  end.
Proof.
  unfold filter_by_ids, active_ids.
  destruct param as [s|]; [|tauto].
  case_bool_decide; [|tauto].
  destruct (parse_ids py_int py_strip s) as [ids|]; [|tauto].
  apply elem_of_filter_related.
Qed.

(** X14. The movie list never shows a movie twice, and shows a movie of the
    table exactly when it passes every filter that is at work: one of
    its genres is among the ids of [genres], one of its actors among the
    ids of [actors], its title contains [title].  A parameter that is
    absent or empty puts no filter to work, and neither does an id list
    with a piece that is not an integer. *)
Theorem movie_list_spec (movies : list Movie)
    (genres actors title : option string) :
  NoDup (MovieViewSet_get_queryset py_int py_strip icontains
           movies genres actors title) ∧
  ∀ m, m ∈ MovieViewSet_get_queryset py_int py_strip icontains
             movies genres actors title ↔
       m ∈ movies ∧
       match active_ids py_int py_strip genres with
       | Some ids => ∃ g, g ∈ movie_genres m ∧ g ∈ ids
       | None => True
       end ∧
       match active_ids py_int py_strip actors with
       | Some ids => ∃ a, a ∈ movie_actors m ∧ a ∈ ids
       | None => True
       end ∧
       match active_title title with
       | Some t => icontains (movie_title m) t = true
       | None => True
       end.
Proof.
  unfold MovieViewSet_get_queryset. split; [apply NoDup_remove_dups|].
  intros m. rewrite elem_of_remove_dups. unfold active_title.
  destruct title as [t|]; [case_bool_decide|];
    rewrite ?list_elem_of_filter, !elem_of_filter_by_ids; tauto.
Qed.

(** X15. A list of ids in which one non-blank piece is not an integer is
    dropped as a whole: the movie list is the one the request would get
    without that parameter. *)
Theorem bad_id_drops_filter (movies : list Movie) (s piece : string)
    (other title : option string) :
  piece ∈ split_comma s → py_strip piece ≠ "" → py_int piece = None →
  MovieViewSet_get_queryset py_int py_strip icontains
    movies (Some s) other title =
  MovieViewSet_get_queryset py_int py_strip icontains
    movies None other title ∧
  MovieViewSet_get_queryset py_int py_strip icontains
    movies other (Some s) title =
  MovieViewSet_get_queryset py_int py_strip icontains
    movies other None title.
Proof.
  intros Hin Hstrip Hint.
  assert (parse_ids py_int py_strip s = None) as Hparse.
  { unfold parse_ids. apply mapM_None. apply Exists_exists.
    exists piece. split; [|done]. by apply list_elem_of_filter. }
  unfold MovieViewSet_get_queryset, filter_by_ids. rewrite Hparse.
  split; by case_bool_decide.
Qed.

(** X16. A non-empty parameter whose pieces are all blank (just commas, say)
    selects no id at all, so the movie list is empty. *)
Theorem blank_ids_match_nothing (movies : list Movie) (s : string)
    (other title : option string) :
  s ≠ "" → (∀ piece, piece ∈ split_comma s → py_strip piece = "") →
  MovieViewSet_get_queryset py_int py_strip icontains
    movies (Some s) other title = [] ∧
  MovieViewSet_get_queryset py_int py_strip icontains
    movies other (Some s) title = [].
Proof.
  intros Hs Hblank.
  assert (parse_ids py_int py_strip s = Some []) as Hparse.
  { unfold parse_ids. rewrite filter_none; [done|].
    intros piece Hin Hne. by apply Hne, Hblank. }
  assert (∀ related qs, filter_related related [] qs = []) as Hnone.
  { intros related qs. apply elem_of_nil_inv. intros m.
    rewrite elem_of_filter_related. set_solver. }
  assert (∀ related param,
            filter_by_ids py_int py_strip related param ([] : list Movie) = [])
    as Hempty.
  { intros related param. apply elem_of_nil_inv. intros m.
    rewrite elem_of_filter_by_ids. set_solver. }
  assert (∀ related qs,
            filter_by_ids py_int py_strip related (Some s) qs = [])
    as Hsome.
  { intros related qs. unfold filter_by_ids.
    by rewrite Hparse, bool_decide_eq_true_2, Hnone. }
  unfold MovieViewSet_get_queryset. rewrite !Hsome, Hempty.
  destruct title as [t|]; [case_bool_decide|]; done.
Qed.
End MovieList.

(** Genres "1,x" on the sample movies: the filter is dropped. *)
Lemma bad_id_drops_filter_witness :
  MovieViewSet_get_queryset sample_int sample_strip sample_contains
    [alien; heat] (Some "1,x") None None =
  MovieViewSet_get_queryset sample_int sample_strip sample_contains
    [alien; heat] None None None ∧
  MovieViewSet_get_queryset sample_int sample_strip sample_contains
    [alien; heat] None (Some "1,x") None =
  MovieViewSet_get_queryset sample_int sample_strip sample_contains
    [alien; heat] None None None.
Proof.
  apply (bad_id_drops_filter sample_int sample_strip sample_contains
           [alien; heat] "1,x" "x" None None).
  - vm_compute. apply elem_of_cons. right. apply elem_of_cons. by left.
  - by vm_compute.
  - reflexivity.
Defined.

(** Genres "," on the sample movies: nothing is listed. *)
Lemma blank_ids_match_nothing_witness :
  MovieViewSet_get_queryset sample_int sample_strip sample_contains
    [alien; heat] (Some ",") None None = [] ∧
  MovieViewSet_get_queryset sample_int sample_strip sample_contains
    [alien; heat] None (Some ",") None = [].
Proof.
  apply (blank_ids_match_nothing sample_int sample_strip sample_contains
           [alien; heat] "," None None).
  - by vm_compute.
  - intros piece Hin. vm_compute in Hin.
    apply elem_of_cons in Hin as [->|Hin]; [done|].
    apply elem_of_cons in Hin as [->|Hin]; [done|].
    by apply elem_of_nil in Hin.
Defined.

Example movie_list_examples :
  MovieViewSet_get_queryset sample_int sample_strip sample_contains
    [alien; heat] (Some "1,2") None None = [alien] ∧
  MovieViewSet_get_queryset sample_int sample_strip sample_contains
    [alien; heat] (Some "3,,") (Some "12") (Some "ea") = [heat] ∧
  MovieViewSet_get_queryset sample_int sample_strip sample_contains
    [alien; heat] (Some "") None (Some "") = [alien; heat].
Proof. split_and!; vm_compute; reflexivity. Qed.

(** ** Filtering sessions *)

Section SessionList.
Context {Date : Type} `{EqDecision Date}.
Context (py_int : string → option Z) (parse_date : string → @Parsed Date).

End SessionList.

Example session_list_examples :
  let row (pk m d : Z) :=
    {| row_session := {| session_id := pk; cinema_hall := blue_hall |};
       row_movie := m; row_date := d |} in
  MovieSessionViewSet_get_queryset sample_int sample_date
    [row 1 1 100; row 2 2 100; row 5 1 101] (Some "1") (Some "100")
    = Some [row 1 1 100] ∧
  MovieSessionViewSet_get_queryset sample_int sample_date
    [row 1 1 100; row 2 2 100; row 5 1 101] (Some "one") (Some "soon")
    = Some [row 1 1 100; row 2 2 100; row 5 1 101] ∧
  MovieSessionViewSet_get_queryset sample_int sample_date
    [row 1 1 100; row 2 2 100; row 5 1 101] (Some "1") (Some "400")
    = None.
Proof. split_and!; vm_compute; reflexivity. Qed.

(** * More on the serializers *)

(** X4. [validate] changes no table and talks to the store at most once:
    the empty, malformed and duplicates errors come without a single
    statement, and an answer about taken seats (the error, or the
    accepted data) comes after exactly one ticket lookup.  It never
    ends without an answer. *)
Theorem validate_asks_once (initial_data : option (list RawTicket))
    (attrs : Attrs) (w : World) :
  match OrderCreateSerializer_validate initial_data attrs w with
  | (inl EmptyTickets, w') | (inl MalformedTickets, w')
  | (inl (DuplicateTickets _), w') => w' = w
  | (inl (TakenTickets _), w') | (inr (Some _), w') =>
      db w' = db w ∧
      ∃ ms_id row__in, log w' = log w ++ [QTicketFilter ms_id row__in]
  | _ => False
  end.
Proof.
  destruct initial_data as [tickets_payload|]; [|done].
  destruct (decide (Forall (λ t, is_Some (raw_key t)) tickets_payload))
    as [Hwf|Hbad].
  - pose proof (validate_well_formed tickets_payload attrs w Hwf) as Hm.
    destruct (OrderCreateSerializer_validate (Some tickets_payload) attrs w)
      as [[e|[a|]] w']; [destruct e| |]; try done.
    + by destruct Hm.
    + by destruct Hm as (_ & _ & ->).
    + destruct Hm as (_ & _ & ms_id & row__in & ->). eauto.
    + destruct Hm as (_ & _ & ms_id & row__in & ->). eauto.
  - apply not_Forall_Exists in Hbad; [|apply _].
    assert (Exists (λ t, raw_key t = None) tickets_payload) as Hex.
    { eapply Exists_impl; [exact Hbad|]. intros t Ht. simpl in Ht.
      destruct (raw_key t); [|done]. exfalso. apply Ht. by eexists. }
    unfold OrderCreateSerializer_validate.
    change (default [] (Some tickets_payload)) with tickets_payload.
    rewrite bool_decide_eq_false_2.
    2:{ intros ->. by apply Exists_nil in Hex. }
    by rewrite group_tickets_malformed.
Qed.

(** X9. In a store whose tickets are unique per seat and inside their
    halls, the taken places of a session list each sold seat of the
    session exactly once, and every listed place is a seat of the
    session's hall. *)
Theorem taken_places_spec (d : DB) (obj : MovieSession) :
  in_grid d → unique_seats d → known_session d obj →
  NoDup (get_taken_places (tickets d) obj) ∧
  ∀ r s, (r, s) ∈ get_taken_places (tickets d) obj ↔
         taken d (session_id obj, r, s) ∧
         1 ≤ r ≤ rows (cinema_hall obj) ∧
         1 ≤ s ≤ seats_in_row (cinema_hall obj).
Proof.
  intros Hg Hu Hs. split; [by apply taken_places_NoDup|].
  intros r s. split.
  - intros Hin. split; [by apply elem_of_taken_places|].
    by eapply taken_places_in_grid.
  - intros [Ht _]. by apply elem_of_taken_places.
Qed.

(** Session 2 of the sample store after user 7's booking. *)
Lemma taken_places_spec_witness :
  NoDup (get_taken_places (tickets (db sold_2_4_4))
           {| session_id := 2; cinema_hall := blue_hall |}) ∧
  ∀ r s, (r, s) ∈ get_taken_places (tickets (db sold_2_4_4))
                    {| session_id := 2; cinema_hall := blue_hall |} ↔
         taken (db sold_2_4_4) (2, r, s) ∧
         1 ≤ r ≤ rows blue_hall ∧ 1 ≤ s ≤ seats_in_row blue_hall.
Proof.
  apply (taken_places_spec (db sold_2_4_4)
           {| session_id := 2; cinema_hall := blue_hall |}).
  - apply (createOrder_keeps_grid 7 [request 2 4 4] fresh), in_grid_fresh.
  - apply (bool_decide_unpack _). by vm_compute.
  - by vm_compute.
Defined.
